(** * NewsBot RAG chatbot backend: a shallow embedding and its properties

    The development follows the Node.js sources of the backend:
    - [services/cacheService.js]   cache key derivation and the query cache,
    - [routes/session.js]          the session store handlers,
    - [routes/chat.js]             the HTTP chat handler,
    - [config/embeddings.js]       the embedding client,
    - [scripts/ingestNews.js]      batch embedding with its validation,
    - [services/ragService.js]     the class-based RAG service,
    - [server.js]                  the retrying generation call, the RAG query
                                   processor and the socket session registry.

    Asynchronous code is written in a small monad that threads the state of
    the outside world (the Redis store, the clock, the log of outbound calls)
    and carries JavaScript exceptions.  External services answer through an
    environment record of oracles, indexed by the number of earlier calls so
    that a retried call may see a different outcome. *)

From Stdlib Require Import ZArith NArith List String Ascii Bool Lia DecimalString.
From stdpp Require Import base gmap sets list strings.

Local Open Scope N_scope.

(** ** JavaScript strings

    A JavaScript string is a sequence of 16-bit UTF-16 code units. *)

Abbreviation jsstring := (list N).

Definition code_unit (u : N) : bool := u <? 65536.

Definition lit (s : string) : jsstring :=
  map N_of_ascii (list_ascii_of_string s).

(** [String(n)] for a non-negative integer. *)
Definition num_to_string (n : N) : jsstring :=
  lit (NilZero.string_of_uint (N.to_uint n)).

(** [Array.prototype.join]. *)
Fixpoint join (sep : jsstring) (parts : list jsstring) : jsstring :=
  match parts with
  | [] => []
  | [p] => p
  | p :: rest => p ++ sep ++ join sep rest
  end.

(** [arr.map((x, i) => f(x, i))], the index starting at [i]. *)
Fixpoint mapi_from {A B} (f : A -> N -> B) (i : N) (l : list A) : list B :=
  match l with
  | [] => []
  | x :: rest => f x i :: mapi_from f (i + 1) rest
  end.

(** A template placeholder applied to a property that may be [undefined]. *)
Definition show (v : option jsstring) : jsstring :=
  match v with
  | Some s => s
  | None => lit "undefined"
  end.

(** [v || dflt] on a string-or-undefined value: the empty string is falsy. *)
Definition or_else (v : option jsstring) (dflt : jsstring) : jsstring :=
  match v with
  | Some (c :: s) => c :: s
  | _ => dflt
  end.

(** ** Values exchanged with the external services *)

(** Embedding components are never inspected by this code; integers stand
    for the numbers of a vector. *)
Definition vector : Type := list Z.

Record Payload := mkPayload {
  p_title : option jsstring;
  p_url : option jsstring;
  p_summary : option jsstring;
  p_content : option jsstring;
  p_source : option jsstring
}.

(** A search hit; [h_payload = None] is a hit returned without payload.  In a
    request, a field [None] is a field the caller did not set, and the score
    threshold is a fraction. *)
Record Hit := mkHit {
  h_id : jsstring;
  h_score : Z;
  h_payload : option Payload
}.

Record SearchReq := mkSearchReq {
  sr_collection : jsstring;
  sr_vector : option vector;
  sr_limit : Z;
  sr_score_threshold : option (Z * Z);
  sr_with_payload : option bool
}.

Record Source := mkSource {
  src_title : option jsstring;
  src_url : option jsstring
}.

(** The response object of the RAG query processor.  [answer = None] is
    [undefined]. *)
Record Response := mkResponse {
  answer : option jsstring;
  sources : list Source;
  hasRelevantContext : bool
}.

(** ** Exceptions and results *)

Inductive ErrKind := ErrError | ErrTypeError.

Record Err := mkErr {
  e_kind : ErrKind;
  e_message : jsstring;
  e_status : option Z
}.

Inductive Res (A : Type) : Type :=
| Ok (a : A)
| Throw (e : Err).
Arguments Ok {A} a.
Arguments Throw {A} e.

Definition new_Error (msg : jsstring) : Err := mkErr ErrError msg None.
Definition new_TypeError (msg : jsstring) : Err := mkErr ErrTypeError msg None.

(** ** Session and cache records kept in Redis *)

Inductive Role := user | bot.

Inductive Content :=
| CUndef
| CNull
| CStr (s : jsstring)
| CResp (r : Response).

Definition truthy (c : Content) : bool :=
  match c with
  | CUndef | CNull => false
  | CStr [] => false
  | CStr (_ :: _) => true
  | CResp _ => true
  end.

Record Message := mkMessage {
  m_id : jsstring;
  m_type : Role;
  m_content : Content;
  m_timestamp : N
}.

Record Session := mkSession {
  s_id : jsstring;
  createdAt : N;
  lastActivity : N;
  messageCount : N;
  messages : list Message
}.

Record CacheData := mkCacheData {
  cd_result : Response;
  cd_timestamp : N;
  cd_query : jsstring
}.

(** The JSON documents stored under a key. *)
Inductive RedisVal :=
| RSession (s : Session)
| RCache (d : CacheData).

(** ** The outside world

    [w_redis] maps a key to its document and the time (in milliseconds) at
    which the key expires; [w_trace] lists the outbound calls in the order
    they were made. *)

Inductive Event :=
| EvEmbed (texts : list jsstring)
| EvSearch (req : SearchReq)
| EvGenerate (prompt : jsstring)
| EvWait (ms : N)
| EvRedisGet (key : jsstring)
| EvRedisSetEx (key : jsstring) (ttl : Z)
| EvUuid.

Record World := mkWorld {
  w_redis : gmap (list N) (RedisVal * N);
  w_now : N;
  w_trace : list Event
}.

(** The oracles of the external services.  The first argument of an oracle is
    the number of calls made to that service before this one. *)
Record Env := mkEnv {
  batchEmbedContents : nat -> list jsstring -> Res (list (option vector));
  qdrant_search : nat -> SearchReq -> Res (list Hit);
  generateContent : nat -> jsstring -> Res jsstring;
  uuidv4 : nat -> jsstring;
  redis_up : nat -> bool;
  SESSION_TTL : option Z;
  CACHE_TTL : option Z;
  QDRANT_COLLECTION_NAME : option jsstring
}.

Definition is_embed (ev : Event) : bool :=
  match ev with EvEmbed _ => true | _ => false end.
Definition is_search (ev : Event) : bool :=
  match ev with EvSearch _ => true | _ => false end.
Definition is_generate (ev : Event) : bool :=
  match ev with EvGenerate _ => true | _ => false end.
Definition is_wait (ev : Event) : bool :=
  match ev with EvWait _ => true | _ => false end.
Definition is_redis (ev : Event) : bool :=
  match ev with EvRedisGet _ | EvRedisSetEx _ _ => true | _ => false end.
Definition is_uuid (ev : Event) : bool :=
  match ev with EvUuid => true | _ => false end.

Definition count_events (p : Event -> bool) (t : list Event) : nat :=
  length (List.filter p t).

Definition calls (p : Event -> bool) (w : World) : nat :=
  count_events p (w_trace w).

Definition log (ev : Event) (w : World) : World :=
  mkWorld (w_redis w) (w_now w) (w_trace w ++ [ev]).

(** ** The monad of asynchronous code *)

Definition M (A : Type) : Type := Env -> World -> Res A * World.

Definition ret {A} (a : A) : M A := fun _ w => (Ok a, w).

Definition bind {A B} (c : M A) (k : A -> M B) : M B :=
  fun e w =>
    match c e w with
    | (Ok a, w') => k a e w'
    | (Throw err, w') => (Throw err, w')
    end.

Definition throw {A} (err : Err) : M A := fun _ w => (Throw err, w).

(** [try { c } catch (err) { h(err) }]. *)
Definition try_catch {A} (c : M A) (h : Err -> M A) : M A :=
  fun e w =>
    match c e w with
    | (Ok a, w') => (Ok a, w')
    | (Throw err, w') => h err e w'
    end.

(** Runs [c] and hands its outcome, value or exception, to the
    continuation. *)
Definition attempt {A} (c : M A) : M (Res A) :=
  fun e w => let (r, w') := c e w in (Ok r, w').

Definition lift_res {A} (r : Res A) : M A := fun _ w => (r, w).

Notation "x <- c ;; k" := (bind c (fun x => k))
  (at level 100, c at next level, right associativity, only parsing).

Definition ask {A} (f : Env -> A) : M A := fun e w => (Ok (f e), w).

(** [new Date()], in milliseconds. *)
Definition now : M N := fun _ w => (Ok (w_now w), w).

(** [await new Promise(r => setTimeout(r, ms))]. *)
Definition wait (ms : N) : M unit :=
  fun _ w => (Ok tt, mkWorld (w_redis w) (w_now w + ms) (w_trace w ++ [EvWait ms])).

Definition uuid : M jsstring :=
  fun e w => (Ok (uuidv4 e (calls is_uuid w)), log EvUuid w).

Definition model_generateContent (prompt : jsstring) : M jsstring :=
  fun e w => (generateContent e (calls is_generate w) prompt, log (EvGenerate prompt) w).

Definition model_batchEmbedContents (texts : list jsstring) : M (list (option vector)) :=
  fun e w => (batchEmbedContents e (calls is_embed w) texts, log (EvEmbed texts) w).

Definition qdrant_client_search (req : SearchReq) : M (list Hit) :=
  fun e w => (qdrant_search e (calls is_search w) req, log (EvSearch req) w).

(** ** The Redis client *)

Definition redis_error : Err := new_Error (lit "The client is closed").

(** The live document under [key]: entries past their expiry are gone. *)
Definition redis_live (w : World) (key : jsstring) : option RedisVal :=
  match w_redis w !! key with
  | Some (v, expires) => if w_now w <? expires then Some v else None
  | None => None
  end.

Definition redisClient_get (key : jsstring) : M (option RedisVal) :=
  fun e w =>
    let w' := log (EvRedisGet key) w in
    if redis_up e (calls is_redis w) then (Ok (redis_live w key), w')
    else (Throw redis_error, w').

Definition redisClient_setEx (key : jsstring) (ttl : Z) (v : RedisVal) : M unit :=
  fun e w =>
    let w' := log (EvRedisSetEx key ttl) w in
    if redis_up e (calls is_redis w) && (0 <? ttl)%Z then
      (Ok tt, mkWorld (<[key := (v, w_now w + Z.to_N ttl * 1000)]> (w_redis w))
                      (w_now w') (w_trace w'))
    else (Throw redis_error, w').

(** [parseInt(process.env.SESSION_TTL) || 86400]; [None] is an unset or
    non-numeric variable. *)
Definition int_or (v : option Z) (dflt : Z) : Z :=
  match v with
  | Some 0%Z | None => dflt
  | Some t => t
  end.

Definition session_ttl (e : Env) : Z := int_or (SESSION_TTL e) 86400.

Definition session_key (sessionId : jsstring) : jsstring :=
  lit "session:" ++ sessionId.

(** ** config/embeddings.js: [GoogleEmbeddingsClient] *)

Definition modelName : jsstring := lit "google-text-embedding-004".

(** [embed(texts)]: an empty input returns [[]] without an upstream call; any
    upstream failure is rethrown as one fixed error.  An element [None] of
    the result is an embedding whose [values] are not an array. *)
Definition embed (texts : list jsstring) : M (list (option vector)) :=
  match texts with
  | [] => ret []
  | _ :: _ =>
      try_catch (model_batchEmbedContents texts)
                (fun _ => throw (new_Error (lit "Failed to create embeddings")))
  end.

(** [embedSingle(text)]: [embeddings[0]], which is [undefined] on an empty
    answer. *)
Definition embedSingle (text : jsstring) : M (option vector) :=
  embeddings <- embed [text] ;;
  ret (match embeddings with
       | [] => None
       | v :: _ => v
       end).

(** ** server.js: the generation call with retries *)

Definition nl : jsstring := [10].
Definition dquote : jsstring := [34].
Definition apostrophe : jsstring := [8217].

Definition apology : jsstring :=
  [9888; 65039] ++ lit " Sorry, I couldn" ++ apostrophe
  ++ lit "t generate a response right now.".

(** The body of the [for] loop of [safeGenerateContent], for the iterations
    [i, i+1, ...] while [remaining] of them are left.  Falling out of the
    loop returns [undefined], that is [None]. *)
Fixpoint safeGenerateContent_from (prompt : jsstring) (retries : Z)
    (remaining : nat) (i : Z) : M (option jsstring) :=
  match remaining with
  | O => ret None
  | S remaining' =>
      r <- attempt (model_generateContent prompt) ;;
      match r with
      | Ok text => ret (Some text)
      | Throw err =>
          if (bool_decide (e_status err = Some 503%Z) && (i <? retries - 1)%Z)%bool then
            _ <- wait (Z.to_N (1000 * 2 ^ i)) ;;
            safeGenerateContent_from prompt retries remaining' (i + 1)%Z
          else if (i =? retries - 1)%Z then
            ret (Some apology)
          else
            safeGenerateContent_from prompt retries remaining' (i + 1)%Z
      end
  end.

Definition safeGenerateContent (prompt : jsstring) (retries : Z) : M (option jsstring) :=
  safeGenerateContent_from prompt retries (Z.to_nat retries) 0%Z.

(** ** server.js: the RAG query processor *)

Definition collectionName (e : Env) : jsstring :=
  or_else (QDRANT_COLLECTION_NAME e) (lit "news_articles").

Definition no_relevant_information : jsstring :=
  lit "I couldn" ++ apostrophe
  ++ lit "t find any relevant information from the stored news articles.".

(** [r.payload], which throws on a property read when the hit has none. *)
Definition payload_of (r : Hit) : Res Payload :=
  match h_payload r with
  | Some p => Ok p
  | None => Throw (new_TypeError (lit "Cannot read properties of undefined"))
  end.

(** [arr.map(f)] for a callback that may throw. *)
Fixpoint mapi_res {A B} (f : A -> N -> Res B) (i : N) (l : list A) : Res (list B) :=
  match l with
  | [] => Ok []
  | x :: rest =>
      match f x i with
      | Throw err => Throw err
      | Ok y =>
          match mapi_res f (i + 1) rest with
          | Throw err => Throw err
          | Ok ys => Ok (y :: ys)
          end
      end
  end.

Definition source_of (r : Hit) (_ : N) : Res Source :=
  match payload_of r with
  | Ok p => Ok (mkSource (p_title p) (p_url p))
  | Throw err => Throw err
  end.

Definition article_block (r : Hit) (i : N) : Res jsstring :=
  match payload_of r with
  | Ok p => Ok (lit "Article " ++ num_to_string (i + 1) ++ lit ": " ++ show (p_title p)
                ++ nl ++ lit "Content: " ++ show (p_summary p))
  | Throw err => Throw err
  end.

Definition context_separator : jsstring :=
  nl ++ nl ++ lit "---" ++ nl ++ nl.

Definition rag_prompt (context query : jsstring) : jsstring :=
  lit "You are a helpful news assistant. Based on the following news articles, provide a concise answer to the user's question."
  ++ nl
  ++ lit "If the articles don't contain the answer, say that you couldn't find relevant information."
  ++ nl ++ nl
  ++ lit "--- CONTEXT FROM NEWS ARTICLES ---" ++ nl
  ++ context ++ nl
  ++ lit "------------------------------------" ++ nl ++ nl
  ++ lit "User's Question: " ++ dquote ++ query ++ dquote ++ nl ++ nl
  ++ lit "Answer:".

Definition processRAGQuery (query sessionId : jsstring) : M Response :=
  queryEmbedding <- embedSingle query ;;
  name <- ask collectionName ;;
  searchResults <- qdrant_client_search
                     (mkSearchReq name queryEmbedding 3 (Some (1, 2)%Z) None) ;;
  match searchResults with
  | [] => ret (mkResponse (Some no_relevant_information) [] false)
  | _ :: _ =>
      sources <- lift_res (mapi_res source_of 0 searchResults) ;;
      blocks <- lift_res (mapi_res article_block 0 searchResults) ;;
      let context := join context_separator blocks in
      let prompt := rag_prompt context query in
      answer <- safeGenerateContent prompt 3 ;;
      ret (mkResponse answer sources true)
  end.

(** ** routes/session.js *)

Inductive Body :=
| BCreated (sessionId : jsstring) (expiresIn : Z)
| BHistory (history : list Message) (count : N) (last : N)
| BCleared
| BMessage (response : Response) (sessionId : jsstring) (timestamp : N)
| BFailure (error : jsstring).

Record HttpRes := mkHttpRes {
  status : Z;
  body : Body
}.

(** A document of another shape under a session key: reading its message
    list fails. *)
Definition not_a_session : Err :=
  new_TypeError (lit "Cannot read properties of undefined").

(** [POST /create]. *)
Definition create_session : M HttpRes :=
  try_catch
    (sessionId <- uuid ;;
     t1 <- now ;;
     t2 <- now ;;
     let sessionData := mkSession sessionId t1 t2 0 [] in
     ttl <- ask session_ttl ;;
     _ <- redisClient_setEx (session_key sessionId) ttl (RSession sessionData) ;;
     ret (mkHttpRes 200 (BCreated sessionId ttl)))
    (fun _ => ret (mkHttpRes 500 (BFailure (lit "Failed to create session")))).

(** [GET /:sessionId/history]. *)
Definition get_history (sessionId : jsstring) : M HttpRes :=
  try_catch
    (sessionData <- redisClient_get (session_key sessionId) ;;
     match sessionData with
     | None => ret (mkHttpRes 404 (BFailure (lit "Session not found or expired")))
     | Some (RSession session) =>
         ret (mkHttpRes 200 (BHistory (messages session) (messageCount session)
                                      (lastActivity session)))
     | Some (RCache _) => throw not_a_session
     end)
    (fun _ => ret (mkHttpRes 500 (BFailure (lit "Failed to fetch session history")))).

(** [DELETE /:sessionId]: the history is reset, the id is kept. *)
Definition clear_session (sessionId : jsstring) : M HttpRes :=
  try_catch
    (sessionData <- redisClient_get (session_key sessionId) ;;
     match sessionData with
     | None => ret (mkHttpRes 404 (BFailure (lit "Session not found")))
     | Some (RSession session) =>
         t <- now ;;
         let session' := mkSession (s_id session) (createdAt session) t 0 [] in
         ttl <- ask session_ttl ;;
         _ <- redisClient_setEx (session_key sessionId) ttl (RSession session') ;;
         ret (mkHttpRes 200 BCleared)
     | Some (RCache _) => throw not_a_session
     end)
    (fun _ => ret (mkHttpRes 500 (BFailure (lit "Failed to clear session")))).

(** [updateSessionActivity(sessionId, userMessage, botResponse)]: a user
    message is pushed in every case, a bot message when [botResponse] is
    truthy; an absent session and every exception give [false]. *)
Definition updateSessionActivity (sessionId : jsstring)
    (userMessage botResponse : Content) : M bool :=
  try_catch
    (sessionData <- redisClient_get (session_key sessionId) ;;
     match sessionData with
     | None => ret false
     | Some (RCache _) => throw not_a_session
     | Some (RSession session) =>
         id1 <- uuid ;;
         t1 <- now ;;
         let pushed := messages session ++ [mkMessage id1 user userMessage t1] in
         pushed' <- (if truthy botResponse then
                       id2 <- uuid ;;
                       t2 <- now ;;
                       ret (pushed ++ [mkMessage id2 bot botResponse t2])
                     else ret pushed) ;;
         t3 <- now ;;
         let session' := mkSession (s_id session) (createdAt session) t3
                                   (N.of_nat (length pushed')) pushed' in
         ttl <- ask session_ttl ;;
         _ <- redisClient_setEx (session_key sessionId) ttl (RSession session') ;;
         ret true
     end)
    (fun _ => ret false).

(** ** String primitives of the runtime used by the cache key *)

Definition is_high_surrogate (u : N) : bool := (0xD800 <=? u) && (u <? 0xDC00).
Definition is_low_surrogate (u : N) : bool := (0xDC00 <=? u) && (u <? 0xE000).

Definition ascii_lower (u : N) : N :=
  if (65 <=? u) && (u <=? 90) then u + 32 else u.

(** Strings made of ASCII units and unpaired surrogates only: their lower
    case is decided by the ASCII letters alone. *)
Fixpoint ascii_or_lone_surrogates (s : jsstring) : bool :=
  match s with
  | [] => true
  | u :: rest =>
      if u <? 128 then ascii_or_lone_surrogates rest
      else if is_high_surrogate u then
        match rest with
        | l :: _ => negb (is_low_surrogate l) && ascii_or_lone_surrogates rest
        | [] => true
        end
      else if is_low_surrogate u then ascii_or_lone_surrogates rest
      else false
  end.

(** [WhiteSpace] and [LineTerminator] of ECMAScript. *)
Definition is_space (u : N) : bool :=
  (u =? 0x09) || (u =? 0x0A) || (u =? 0x0B) || (u =? 0x0C) || (u =? 0x0D)
  || (u =? 0x20) || (u =? 0xA0) || (u =? 0x1680)
  || ((0x2000 <=? u) && (u <=? 0x200A))
  || (u =? 0x2028) || (u =? 0x2029) || (u =? 0x202F) || (u =? 0x205F)
  || (u =? 0x3000) || (u =? 0xFEFF).

Fixpoint trimStart (s : jsstring) : jsstring :=
  match s with
  | [] => []
  | u :: rest => if is_space u then trimStart rest else s
  end.

Definition trim (s : jsstring) : jsstring :=
  rev (trimStart (rev (trimStart s))).

(** [Buffer.from(s)]: the UTF-8 bytes of [s]; a surrogate pair is one
    four-byte sequence and an unpaired surrogate becomes U+FFFD. *)
Fixpoint utf8_encode (s : jsstring) : list N :=
  match s with
  | [] => []
  | u :: rest =>
      if u <? 0x80 then u :: utf8_encode rest
      else if u <? 0x800 then
        (0xC0 + u / 64) :: (0x80 + u mod 64) :: utf8_encode rest
      else if is_high_surrogate u then
        match rest with
        | l :: rest' =>
            if is_low_surrogate l then
              let cp := 0x10000 + (u - 0xD800) * 1024 + (l - 0xDC00) in
              (0xF0 + cp / 262144) :: (0x80 + (cp / 4096) mod 64)
              :: (0x80 + (cp / 64) mod 64) :: (0x80 + cp mod 64)
              :: utf8_encode rest'
            else 0xEF :: 0xBF :: 0xBD :: utf8_encode rest
        | [] => [0xEF; 0xBF; 0xBD]
        end
      else if is_low_surrogate u then 0xEF :: 0xBF :: 0xBD :: utf8_encode rest
      else
        (0xE0 + u / 4096) :: (0x80 + (u / 64) mod 64) :: (0x80 + u mod 64)
        :: utf8_encode rest
  end.

Definition base64_alphabet : jsstring :=
  lit "ABCDEFGHIJKLMNOPQRSTUVWXYZabcdefghijklmnopqrstuvwxyz0123456789+/".

Definition base64_digit (v : N) : N := nth (N.to_nat v) base64_alphabet 0.

Definition base64_pad : N := 61.

(** [buf.toString('base64')]. *)
Fixpoint base64_encode (bytes : list N) : jsstring :=
  match bytes with
  | [] => []
  | [a] =>
      [base64_digit (a / 4); base64_digit ((a mod 4) * 16); base64_pad; base64_pad]
  | [a; b] =>
      [base64_digit (a / 4); base64_digit ((a mod 4) * 16 + b / 16);
       base64_digit ((b mod 16) * 4); base64_pad]
  | a :: b :: c :: rest =>
      base64_digit (a / 4) :: base64_digit ((a mod 4) * 16 + b / 16)
      :: base64_digit ((b mod 16) * 4 + c / 64) :: base64_digit (c mod 64)
      :: base64_encode rest
  end.

(** ** services/cacheService.js

    [unicode_lower] is the lower-casing of the runtime for strings that
    contain units beyond ASCII and unpaired surrogates (the Unicode case
    tables are not part of the repository). *)

Section CacheService.

Variable unicode_lower : jsstring -> jsstring.

Definition toLowerCase (s : jsstring) : jsstring :=
  if ascii_or_lone_surrogates s then map ascii_lower s else unicode_lower s.

(** The normalised query: [query.toLowerCase().trim()]. *)
Definition normalize (query : jsstring) : jsstring :=
  trim (toLowerCase query).

Definition getQueryCacheKey (query : jsstring) : jsstring :=
  lit "query:" ++ base64_encode (utf8_encode (normalize query)).

Definition defaultTTL (e : Env) : Z := int_or (CACHE_TTL e) 3600.

(** The object returned on a cache hit: the cached result spread, with the
    two extra fields. *)
Record CachedResult := mkCachedResult {
  cr_answer : option jsstring;
  cr_sources : list Source;
  cr_hasRelevantContext : bool;
  fromCache : bool;
  cachedAt : N
}.

Definition cacheQueryResult (query : jsstring) (result : Response) (ttl : option Z)
  : M bool :=
  try_catch
    (let key := getQueryCacheKey query in
     t <- now ;;
     let data := mkCacheData result t query in
     dflt <- ask defaultTTL ;;
     let ttl := match ttl with Some t => t | None => dflt end in
     _ <- redisClient_setEx key ttl (RCache data) ;;
     ret true)
    (fun _ => ret false).

(** A document of another shape under a query key (none is ever written by
    this code) is read as a miss. *)
Definition getCachedQueryResult (query : jsstring) : M (option CachedResult) :=
  try_catch
    (let key := getQueryCacheKey query in
     cached <- redisClient_get key ;;
     match cached with
     | Some (RCache data) =>
         let r := cd_result data in
         ret (Some (mkCachedResult (answer r) (sources r) (hasRelevantContext r)
                                   true (cd_timestamp data)))
     | Some (RSession _) => ret None
     | None => ret None
     end)
    (fun _ => ret None).

End CacheService.

(** ** services/ragService.js

    The service calls its collaborators by name.  A call of a name that the
    collaborator does not define throws a [TypeError]; the member tables
    below list what each collaborator module defines. *)

Definition cacheService_members : list string :=
  ["defaultTTL"; "cacheQueryResult"; "getCachedQueryResult"; "getSessionFromCache";
   "updateSessionCache"; "warmCache"; "getQueryCacheKey"; "clearCache";
   "getCacheStats"]%string.

Definition embeddings_members : list string :=
  ["modelName"; "embed"; "embedSingle"]%string.

Definition gemini_members : list string :=
  ["model"; "generateResponse"; "generateStreamingResponse"]%string.

(** The object services/ragService.js exports, [new RagService()]: its field
    and the methods of the class. *)
Definition ragService_members : list string :=
  ["collectionName"; "embedQuery"; "retrieveRelevantDocs"; "formatContext";
   "answerQuery"]%string.

(** [obj.name(...)], or the call of a [name] taken from [obj] by a
    destructuring import: runs [body] when [obj] defines [name]. *)
Definition invoke {A} (members : list string) (name : string) (body : M A) : M A :=
  if existsb (String.eqb name) members then body
  else throw (new_TypeError (lit name ++ lit " is not a function")).

Definition no_information_in_news : jsstring :=
  lit "I couldn't find relevant information in the provided news.".

Definition something_went_wrong : jsstring :=
  lit "Something went wrong while processing your query.".

Section RagService.

(** What the three called names would run if their modules defined them. *)
Variable getCachedResponse_body : jsstring -> jsstring -> M (option jsstring).
Variable cacheResponse_body : jsstring -> jsstring -> option jsstring -> M unit.
Variable generateEmbedding_body : jsstring -> M (option vector).
Variable generateAnswer_body : jsstring -> M (option jsstring).

Definition embedQuery (query : jsstring) : M (option vector) :=
  try_catch
    (invoke embeddings_members "generateEmbedding" (generateEmbedding_body query))
    (fun _ => throw (new_Error (lit "Embedding generation failed"))).

(** A failed search is answered with no documents. *)
Definition retrieveRelevantDocs (queryEmbedding : option vector) (k : Z)
  : M (list Hit) :=
  try_catch
    (name <- ask collectionName ;;
     results <- qdrant_client_search (mkSearchReq name queryEmbedding k None (Some true)) ;;
     ret results)
    (fun _ => ret []).

Definition document_block (doc : Hit) (idx : N) : jsstring :=
  let source := match h_payload doc with Some p => p_source p | None => None end in
  let content := match h_payload doc with Some p => p_content p | None => None end in
  lit "Document " ++ num_to_string (idx + 1) ++ lit " [" ++ or_else source (lit "unknown")
  ++ lit "]:" ++ nl ++ or_else content [].

Definition formatContext (results : list Hit) : jsstring :=
  match results with
  | [] => []
  | _ :: _ => join (nl ++ nl) (mapi_from document_block 0 results)
  end.

Definition answer_prompt (context query : jsstring) : jsstring :=
  lit "You are a news assistant. Use the following retrieved articles to answer the question."
  ++ nl ++ nl ++ lit "Context:" ++ nl ++ context ++ nl ++ nl
  ++ lit "Question: " ++ query ++ nl ++ lit "Answer:".

Definition answerQuery (sessionId query : jsstring) : M jsstring :=
  try_catch
    (cached <- invoke cacheService_members "getCachedResponse"
                 (getCachedResponse_body sessionId query) ;;
     match cached with
     | Some (c :: s) => ret (c :: s)
     | _ =>
         queryEmbedding <- embedQuery query ;;
         results <- retrieveRelevantDocs queryEmbedding 5 ;;
         match results with
         | [] => ret no_information_in_news
         | _ :: _ =>
             let context := formatContext results in
             let prompt := answer_prompt context query in
             answer <- invoke gemini_members "generateAnswer"
                         (generateAnswer_body prompt) ;;
             _ <- invoke cacheService_members "cacheResponse"
                    (cacheResponse_body sessionId query answer) ;;
             ret (or_else answer no_information_in_news)
         end
     end)
    (fun _ => ret something_went_wrong).

End RagService.

(** ** routes/chat.js: [POST /message]

    The handler imports [processRAGQuery] by name from services/ragService.js
    and calls it; the module exports [new RagService()], whose members are
    listed in [ragService_members].  A request field [None] is a field
    missing from the body. *)

Section ChatRoute.

(** What the call would run if the module exported the name. *)
Variable processRAGQuery_body : jsstring -> jsstring -> Z -> M Response.

Definition post_message (message sessionId : option jsstring) (topK : option Z)
  : M HttpRes :=
  try_catch
    (match message, sessionId with
     | Some (c :: m), Some (d :: s) =>
         let message := c :: m in
         let sessionId := d :: s in
         let topK := match topK with Some k => k | None => 5%Z end in
         _ <- updateSessionActivity sessionId (CStr message) CUndef ;;
         response <- invoke ragService_members "processRAGQuery"
                       (processRAGQuery_body message sessionId topK) ;;
         _ <- updateSessionActivity sessionId CNull (CResp response) ;;
         t <- now ;;
         ret (mkHttpRes 200 (BMessage response sessionId t))
     | _, _ =>
         ret (mkHttpRes 400 (BFailure (lit "Message and sessionId are required")))
     end)
    (fun _ => ret (mkHttpRes 500 (BFailure (lit "Failed to process message")))).

End ChatRoute.

(** ** scripts/ingestNews.js: [createEmbeddings] *)

Record Article := mkArticle {
  a_title : jsstring;
  a_summary : jsstring;
  a_content : jsstring;
  a_url : jsstring
}.

Record EmbeddedArticle := mkEmbeddedArticle {
  ea_article : Article;
  embedding : option vector;
  embeddingError : option jsstring;
  embeddingCreatedAt : N;
  embeddingModel : option jsstring;
  embeddingDimensions : option N
}.

(** [this.batchSize], a positive integer: the constructor of
    [NewsIngestionService] sets 10, the one of [BatchIngestionService]
    (scripts/batchIngest.js) [options.batchSize || 100]. *)
Definition NewsIngestionService_batchSize : positive := 10.

Definition BatchIngestionService_batchSize (option_batchSize : option positive)
  : positive :=
  match option_batchSize with
  | Some n => n
  | None => 100
  end.

(** [s.substring(0, n)]. *)
Definition substring0 (n : N) (s : jsstring) : jsstring := firstn (N.to_nat n) s.

Definition embedding_text (article : Article) : jsstring :=
  let contentSnippet := substring0 1500 (a_content article) in
  substring0 8000 (a_title article ++ nl ++ nl ++ a_summary article ++ nl ++ nl
                   ++ contentSnippet).

Definition mismatch_message (got expected : nat) : jsstring :=
  lit "API returned " ++ num_to_string (N.of_nat got) ++ lit " embeddings for a batch of "
  ++ num_to_string (N.of_nat expected) ++ lit " articles. Mismatch occurred.".

Definition invalid_embedding_message : jsstring :=
  lit "Invalid embedding received from API for this article.".

(** The inner loop over one batch: article [j] takes embedding [j]. *)
Fixpoint attach (batch : list Article) (batchEmbeddings : list (option vector))
    (t : N) : list EmbeddedArticle :=
  match batch with
  | [] => []
  | article :: batch' =>
      let entry :=
        match batchEmbeddings with
        | Some v :: _ =>
            mkEmbeddedArticle article (Some v) None t (Some modelName)
                              (Some (N.of_nat (length v)))
        | _ => mkEmbeddedArticle article None (Some invalid_embedding_message) t None None
        end in
      entry :: attach batch' (tl batchEmbeddings) t
  end.

Definition failed (message : jsstring) (t : N) (article : Article) : EmbeddedArticle :=
  mkEmbeddedArticle article None (Some message) t None None.

(** One iteration of the outer loop: the [try] block and its [catch].
    [more] tells whether another batch follows. *)
Definition embed_batch (batch : list Article) (more : bool) : M (list EmbeddedArticle) :=
  try_catch
    (let texts := map embedding_text batch in
     batchEmbeddings <- embed texts ;;
     if negb (length batchEmbeddings =? length batch)%nat then
       throw (new_Error (mismatch_message (length batchEmbeddings) (length batch)))
     else
       t <- now ;;
       let done := attach batch batchEmbeddings t in
       _ <- (if more then wait 2000 else ret tt) ;;
       ret done)
    (fun error =>
       t <- now ;;
       ret (map (failed (e_message error) t) batch)).

(** The outer loop from index [i] on, [articles] being what is left of
    [this.articles] there.  Every round takes at least one article, so the
    loop ends within [length articles] rounds. *)
Fixpoint createEmbeddings_from (batchSize : positive) (fuel : nat)
    (articles : list Article) : M (list EmbeddedArticle) :=
  match fuel, articles with
  | _, [] => ret []
  | O, _ => ret []
  | S fuel', _ :: _ =>
      let batch := firstn (Pos.to_nat batchSize) articles in
      let rest := skipn (Pos.to_nat batchSize) articles in
      head <- embed_batch batch (negb (length rest =? 0)%nat) ;;
      tail <- createEmbeddings_from batchSize fuel' rest ;;
      ret (head ++ tail)
  end.

(** [createEmbeddings()] of a service whose fields are [batchSize] and
    [articles]. *)
Definition createEmbeddings (batchSize : positive) (articles : list Article)
  : M (list EmbeddedArticle) :=
  createEmbeddings_from batchSize (length articles) articles.

(** ** server.js: the socket session registry

    [sockets] is [io.sockets.sockets] with the room set of each live
    connection; a connection starts in the room named by its own id.
    [connectedSessions] is a JavaScript [Map], kept as an association list in
    insertion order because the disconnect handler stops at the first entry
    it finds. *)

Record Io := mkIo {
  sockets : gmap (list N) (gset (list N));
  connectedSessions : list (jsstring * jsstring)
}.

Fixpoint Map_get (k : jsstring) (m : list (jsstring * jsstring)) : option jsstring :=
  match m with
  | [] => None
  | (k', v) :: rest => if decide (k' = k) then Some v else Map_get k rest
  end.

Fixpoint Map_set (k v : jsstring) (m : list (jsstring * jsstring))
  : list (jsstring * jsstring) :=
  match m with
  | [] => [(k, v)]
  | (k', v') :: rest =>
      if decide (k' = k) then (k, v) :: rest else (k', v') :: Map_set k v rest
  end.

(** The loop of the disconnect handler: delete the first entry bound to
    [socketId], then [break]. *)
Fixpoint delete_first_bound (socketId : jsstring) (m : list (jsstring * jsstring))
  : list (jsstring * jsstring) :=
  match m with
  | [] => []
  | (k, v) :: rest =>
      if decide (v = socketId) then rest else (k, v) :: delete_first_bound socketId rest
  end.

Definition io_init : Io := mkIo ∅ [].

(** A new connection joins the room of its own id. *)
Definition on_connection (id : jsstring) (io : Io) : Io :=
  match sockets io !! id with
  | Some _ => io
  | None => mkIo (<[id := {[id]}]> (sockets io)) (connectedSessions io)
  end.

(** The [join-session] handler of the connection [id]. *)
Definition on_join_session (id sessionId : jsstring) (io : Io) : Io :=
  match sockets io !! id with
  | None => io
  | Some rooms =>
      (* leave any previous rooms *)
      let left := <[id := rooms ∩ {[id]}]> (sockets io) in
      (* a session that already has a socket: that socket leaves the room *)
      let evicted :=
        match Map_get sessionId (connectedSessions io) with
        | Some existingSocketId =>
            alter (fun r => r ∖ {[sessionId]}) existingSocketId left
        | None => left
        end in
      let joined := alter (fun r => r ∪ {[sessionId]}) id evicted in
      mkIo joined (Map_set sessionId id (connectedSessions io))
  end.

(** The connection is closed (it leaves every room), then the [disconnect]
    handler runs. *)
Definition on_disconnect (id : jsstring) (io : Io) : Io :=
  match sockets io !! id with
  | None => io
  | Some _ => mkIo (delete id (sockets io)) (delete_first_bound id (connectedSessions io))
  end.

Inductive SocketEvent :=
| Connection (id : jsstring)
| JoinSession (id sessionId : jsstring)
| Disconnect (id : jsstring).

Definition socket_step (io : Io) (ev : SocketEvent) : Io :=
  match ev with
  | Connection id => on_connection id io
  | JoinSession id sessionId => on_join_session id sessionId io
  | Disconnect id => on_disconnect id io
  end.

Definition socket_run (evs : list SocketEvent) (io : Io) : Io :=
  fold_left socket_step evs io.

(** The delivery group of a room: the connections an emit to the room
    reaches. *)
Definition room_members (io : Io) (room : jsstring) : gset (list N) :=
  dom (filter (fun entry => room ∈ entry.2) (sockets io)).

(** ** Runs of the session store operations *)

Inductive SessionOp :=
| OpCreate
| OpUpdate (sessionId : jsstring) (userMessage botResponse : Content)
| OpClear (sessionId : jsstring)
| OpTick (ms : N).

Definition session_step (e : Env) (w : World) (op : SessionOp) : World :=
  match op with
  | OpCreate => snd (create_session e w)
  | OpUpdate sessionId userMessage botResponse =>
      snd (updateSessionActivity sessionId userMessage botResponse e w)
  | OpClear sessionId => snd (clear_session sessionId e w)
  | OpTick ms => mkWorld (w_redis w) (w_now w + ms) (w_trace w)
  end.

Definition session_run (e : Env) (ops : list SessionOp) (w : World) : World :=
  fold_left (session_step e) ops w.

Definition world_init : World := mkWorld ∅ 0 [].

(** ** Vocabulary of the statements

    [after w evs] is the world [w] once the outbound calls [evs] were made:
    the log grows by [evs] and the clock by the waits among them.
    [backoff o i] is the pause that follows attempt [i] of the generation
    call when its outcome [o] is an overload error. *)

Definition backoff (o : Res jsstring) (i : Z) : list Event :=
  match o with
  | Throw err =>
      if bool_decide (e_status err = Some 503%Z) then [EvWait (Z.to_N (1000 * 2 ^ i))] else []
  | Ok _ => []
  end.

Definition elapsed (evs : list Event) : N :=
  fold_right (fun ev acc => match ev with EvWait ms => ms + acc | _ => acc end) 0 evs.

Definition after (w : World) (evs : list Event) : World :=
  mkWorld (w_redis w) (w_now w + elapsed evs) (w_trace w ++ evs).

(** The session document live under the key of [sessionId]. *)
Definition stored_session (w : World) (sessionId : jsstring) : option Session :=
  match redis_live w (session_key sessionId) with
  | Some (RSession s) => Some s
  | _ => None
  end.

(** Every stored session counts its messages right. *)
Definition counts_consistent (w : World) : Prop :=
  forall key s expires,
    w_redis w !! key = Some (RSession s, expires) ->
    messageCount s = N.of_nat (length (messages s)).

(** [c] keeps the property [I] of the world, whatever its outcome. *)
Definition preserves {A} (I : World -> Prop) (c : M A) : Prop :=
  forall e w r w', I w -> c e w = (r, w') -> I w'.

(** ** Concrete scenarios used to exercise the definitions *)

Definition overloaded : Err := mkErr ErrError (lit "The model is overloaded") (Some 503%Z).
Definition bad_request : Err := mkErr ErrError (lit "Bad request") (Some 400%Z).
Definition unreachable : Err := mkErr ErrError (lit "fetch failed") None.

Definition sample_vector : vector := [1; 0; -1]%Z.

Definition sample_hit : Hit :=
  mkHit (lit "a1") 90
        (Some (mkPayload (Some (lit "Markets rally")) (Some (lit "https://n.example/1"))
                         (Some (lit "Stocks rose.")) (Some (lit "Stocks rose sharply."))
                         (Some (lit "wire")))).

(** Every service answers; the search finds nothing. *)
Definition env_no_hits : Env :=
  mkEnv (fun _ texts => Ok (map (fun _ => Some sample_vector) texts))
        (fun _ _ => Ok [])
        (fun _ _ => Ok (lit "generated"))
        (fun n => lit "id-" ++ num_to_string (N.of_nat n))
        (fun _ => true) None None None.

(** Every service answers; the search finds one article. *)
Definition env_one_hit : Env :=
  mkEnv (fun _ texts => Ok (map (fun _ => Some sample_vector) texts))
        (fun _ _ => Ok [sample_hit])
        (fun _ _ => Ok (lit "generated"))
        (fun n => lit "id-" ++ num_to_string (N.of_nat n))
        (fun _ => true) None None None.

(** The vector store is unreachable. *)
Definition env_search_down : Env :=
  mkEnv (fun _ texts => Ok (map (fun _ => Some sample_vector) texts))
        (fun _ _ => Throw unreachable)
        (fun _ _ => Ok (lit "generated"))
        (fun n => lit "id-" ++ num_to_string (N.of_nat n))
        (fun _ => true) None None None.

(** The model rejects the first attempt with a client error and then
    answers. *)
Definition env_flaky_model : Env :=
  mkEnv (fun _ texts => Ok (map (fun _ => Some sample_vector) texts))
        (fun _ _ => Ok [sample_hit])
        (fun n _ => match n with O => Throw bad_request | _ => Ok (lit "generated") end)
        (fun n => lit "id-" ++ num_to_string (N.of_nat n))
        (fun _ => true) None None None.

(** The embedding service answers a batch with one vector too few. *)
Definition env_short_batch : Env :=
  mkEnv (fun _ texts => Ok (map (fun _ => Some sample_vector) (tl texts)))
        (fun _ _ => Ok [])
        (fun _ _ => Ok (lit "generated"))
        (fun n => lit "id-" ++ num_to_string (N.of_nat n))
        (fun _ => true) None None None.

Definition sample_query : jsstring := lit "What happened today?".
Definition sample_session : jsstring := lit "id-0".

Definition article_one : Article :=
  mkArticle (lit "Markets rally") (lit "Stocks rose.") (lit "Stocks rose sharply.")
            (lit "https://n.example/1").

Definition article_two : Article :=
  mkArticle (lit "Rain expected") (lit "A wet week.") (lit "Rain is expected all week.")
            (lit "https://n.example/2").


Definition conn_a : jsstring := lit "socket-a".
Definition session_s : jsstring := lit "5f0c-session".

(** ** Decoders, the inverses used to state that the key encodes the query *)

(** No unpaired surrogate, and every unit is a 16-bit code unit. *)
Fixpoint well_formed (s : jsstring) : bool :=
  match s with
  | [] => true
  | u :: rest =>
      if is_high_surrogate u then
        match rest with
        | l :: rest' => is_low_surrogate l && well_formed rest'
        | [] => false
        end
      else if is_low_surrogate u then false
      else code_unit u && well_formed rest
  end.

(** Every unit is a 16-bit code unit, as in every string of the runtime. *)
Definition utf16 (s : jsstring) : bool := forallb code_unit s.

(** [s.toWellFormed()]: every unpaired surrogate becomes U+FFFD. *)
Fixpoint toWellFormed (s : jsstring) : jsstring :=
  match s with
  | [] => []
  | u :: rest =>
      if is_high_surrogate u then
        match rest with
        | l :: rest' =>
            if is_low_surrogate l then u :: l :: toWellFormed rest'
            else 0xFFFD :: toWellFormed rest
        | [] => [0xFFFD]
        end
      else if is_low_surrogate u then 0xFFFD :: toWellFormed rest
      else u :: toWellFormed rest
  end.

Fixpoint utf8_decode (bytes : list N) : jsstring :=
  match bytes with
  | [] => []
  | b0 :: r0 =>
      if b0 <? 0x80 then b0 :: utf8_decode r0
      else if b0 <? 0xE0 then
        match r0 with
        | b1 :: r1 => ((b0 - 0xC0) * 64 + (b1 - 0x80)) :: utf8_decode r1
        | _ => []
        end
      else if b0 <? 0xF0 then
        match r0 with
        | b1 :: b2 :: r2 =>
            ((b0 - 0xE0) * 4096 + (b1 - 0x80) * 64 + (b2 - 0x80)) :: utf8_decode r2
        | _ => []
        end
      else
        match r0 with
        | b1 :: b2 :: b3 :: r3 =>
            let cp := (b0 - 0xF0) * 262144 + (b1 - 0x80) * 4096
                      + (b2 - 0x80) * 64 + (b3 - 0x80) in
            (0xD800 + (cp - 0x10000) / 1024) :: (0xDC00 + (cp - 0x10000) mod 1024)
            :: utf8_decode r3
        | _ => []
        end
  end.

Definition base64_value (c : N) : N :=
  if (65 <=? c) && (c <=? 90) then c - 65
  else if (97 <=? c) && (c <=? 122) then c - 71
  else if (48 <=? c) && (c <=? 57) then c + 4
  else if c =? 43 then 62
  else 63.

Fixpoint base64_decode (cs : jsstring) : list N :=
  match cs with
  | c0 :: c1 :: c2 :: c3 :: rest =>
      let v0 := base64_value c0 in
      let v1 := base64_value c1 in
      let v2 := base64_value c2 in
      let v3 := base64_value c3 in
      if c2 =? base64_pad then [v0 * 4 + v1 / 16]
      else if c3 =? base64_pad then [v0 * 4 + v1 / 16; (v1 mod 16) * 16 + v2 / 4]
      else (v0 * 4 + v1 / 16) :: ((v1 mod 16) * 16 + v2 / 4) :: ((v2 mod 4) * 64 + v3)
           :: base64_decode rest
  | _ => []
  end.

Definition printable_ascii (c : N) : bool := (32 <? c) && (c <? 127).

(** The lower-casing of ASCII alone, used where a concrete run needs a value
    for the Unicode tables. *)
Definition ascii_only_lower (s : jsstring) : jsstring := map ascii_lower s.

(* ===================================================================== *)
(** * Further parts of the code *)
(* ===================================================================== *)

(** The world [dt] milliseconds later, nothing else having happened. *)
Definition elapse (dt : N) (w : World) : World :=
  mkWorld (w_redis w) (w_now w + dt) (w_trace w).

(** The time at which the key expires, when it is in the store. *)
Definition expiry (w : World) (key : jsstring) : option N :=
  snd <$> w_redis w !! key.

(** Redis refuses every command. *)
Definition env_redis_down : Env :=
  mkEnv (fun _ texts => Ok (map (fun _ => Some sample_vector) texts))
        (fun _ _ => Ok [sample_hit])
        (fun _ _ => Ok (lit "generated"))
        (fun n => lit "id-" ++ num_to_string (N.of_nat n))
        (fun _ => false) None None None.

Definition sample_response : Response :=
  mkResponse (Some (lit "generated")) [mkSource (Some (lit "Markets rally")) None] true.

(** Between [w0] and [w] the clock did not move and no key but [key] was
    written. *)
Definition untouched_except (key : jsstring) (w0 w : World) : Prop :=
  w_now w = w_now w0 /\ forall k, k <> key -> w_redis w !! k = w_redis w0 !! k.

Definition generate_or_wait (ev : Event) : bool := is_generate ev || is_wait ev.

(** The model is overloaded at every attempt. *)
Definition env_overloaded : Env :=
  mkEnv (fun _ texts => Ok (map (fun _ => Some sample_vector) texts))
        (fun _ _ => Ok [sample_hit])
        (fun _ _ => Throw overloaded)
        (fun n => lit "id-" ++ num_to_string (N.of_nat n))
        (fun _ => true) None None None.

(** The request [processRAGQuery] sends to the vector store. *)
Definition rag_search_request (e : Env) (v : option vector) : SearchReq :=
  mkSearchReq (collectionName e) v 3 (Some (1, 2)%Z) None.

(** The embedding service is down. *)
Definition env_embed_down : Env :=
  mkEnv (fun _ _ => Throw unreachable)
        (fun _ _ => Ok [sample_hit])
        (fun _ _ => Ok (lit "generated"))
        (fun n => lit "id-" ++ num_to_string (N.of_nat n))
        (fun _ => true) None None None.

(** The search returns a hit without payload after one with payload. *)
Definition env_bare_hit : Env :=
  mkEnv (fun _ texts => Ok (map (fun _ => Some sample_vector) texts))
        (fun _ _ => Ok [sample_hit; mkHit (lit "a2") 80 None])
        (fun _ _ => Ok (lit "generated"))
        (fun n => lit "id-" ++ num_to_string (N.of_nat n))
        (fun _ => true) None None None.

(** ** server.js: the [send-message] handler of a connection

    What the handler emits to the requesting socket. *)

Inductive Emit :=
| EmitBotResponse (id sessionId : jsstring) (response : Response) (timestamp : N)
| EmitError (message : jsstring).

Definition on_send_message (sessionId message : jsstring) : M Emit :=
  try_catch
    (response <- processRAGQuery message sessionId ;;
     id <- uuid ;;
     t <- now ;;
     ret (EmitBotResponse id sessionId response t))
    (fun _ => ret (EmitError (lit "Failed to process your message. Please try again."))).


(** No Redis command was issued between [w0] and [w], and the store is the
    same. *)
Definition redis_idle (w0 w : World) : Prop :=
  w_redis w = w_redis w0 /\ calls is_redis w = calls is_redis w0.

(** The entries of the registry bound to the connection [id]. *)
Definition bindings_of (id : jsstring) (m : list (jsstring * jsstring))
  : list (jsstring * jsstring) :=
  List.filter (fun entry => bool_decide (entry.2 = id)) m.

Definition bindings_of_others (id : jsstring) (m : list (jsstring * jsstring))
  : list (jsstring * jsstring) :=
  List.filter (fun entry => negb (bool_decide (entry.2 = id))) m.


Definition session_t : jsstring := lit "77aa-session".

(** A record of [createEmbeddings] carries a vector or an error. *)
Definition vector_xor_error (ea : EmbeddedArticle) : Prop :=
  (is_Some (embedding ea) /\ embeddingError ea = None)
  \/ (embedding ea = None /\ is_Some (embeddingError ea)).

(** No embedding request in the log carries more than [n] texts. *)
Definition embed_requests_within (n : nat) (w : World) : Prop :=
  Forall (fun ev => match ev with
                    | EvEmbed texts => (length texts <= n)%nat
                    | _ => True
                    end) (w_trace w).

(** The embedding service answers every request with two vectors. *)
Definition env_two_vectors : Env :=
  mkEnv (fun _ _ => Ok [Some sample_vector; Some [7; 7]%Z])
        (fun _ _ => Ok [])
        (fun _ _ => Ok (lit "generated"))
        (fun n => lit "id-" ++ num_to_string (N.of_nat n))
        (fun _ => true) None None None.

(** ** scripts/ingestNews.js: text clean-up and article validation *)

(** [s.replace(/\s+/g, ' ')]: every run of white space becomes one space.
    [in_run] tells whether the previous unit was white space. *)
Fixpoint collapse_spaces (in_run : bool) (s : jsstring) : jsstring :=
  match s with
  | [] => []
  | u :: rest =>
      if is_space u then
        if in_run then collapse_spaces true rest else 32 :: collapse_spaces true rest
      else u :: collapse_spaces false rest
  end.

(** [cleanText(text)]; the empty string stands for every falsy [text]. *)
Definition cleanText (text : jsstring) : jsstring :=
  match text with
  | [] => []
  | _ :: _ => trim (collapse_spaces false text)
  end.

(** Text without white space at either end and with single U+0020 spaces
    as its only white space. *)
Fixpoint single_spaced (s : jsstring) : bool :=
  match s with
  | [] => true
  | u :: rest =>
      (if is_space u then
         (u =? 32) && match rest with
                      | [] => false
                      | v :: _ => negb (is_space v)
                      end
       else true) && single_spaced rest
  end.

Definition tidy (s : jsstring) : bool :=
  match s with
  | [] => true
  | u :: _ => negb (is_space u) && single_spaced s
  end.

Definition visible (s : jsstring) : jsstring :=
  List.filter (fun u => negb (is_space u)) s.

(** White space is U+0020 only, and no two spaces are adjacent. *)
Fixpoint spaced (s : jsstring) : bool :=
  match s with
  | [] => true
  | u :: rest =>
      (if is_space u then
         (u =? 32) && match rest with
                      | [] => true
                      | v :: _ => negb (is_space v)
                      end
       else true) && spaced rest
  end.

(** The first unit, if any, is not white space. *)
Definition starts_visible (s : jsstring) : Prop :=
  match s with
  | [] => True
  | u :: _ => is_space u = false
  end.






Section Ingest.

Variable unicode_lower : jsstring -> jsstring.










End Ingest.

(** ** scripts/ingestNews.js: [storeInVectorDB]

    The Qdrant client is outside the repository: [initializeCollection]
    (config/qdrant.js), [client.upsert] and [client.getCollection] are
    arbitrary computations here. *)

Record Point := mkPoint {
  pt_vector : option vector;
  pt_payload : Article;
  pt_embeddingCreatedAt : N;
  pt_embeddingModel : option jsstring
}.

Definition vectorBatchSize : nat := 50.

(** [article => article.embedding] as a filter: an array is truthy. *)
Definition has_embedding (article : EmbeddedArticle) : bool :=
  match embedding article with
  | Some _ => true
  | None => false
  end.

Definition to_point (article : EmbeddedArticle) : Point :=
  mkPoint (embedding article) (ea_article article) (embeddingCreatedAt article)
          (embeddingModel article).

(** A batch as [storeInVectorDB] means to send them: not empty, at most
    [vectorBatchSize] points, each with its vector. *)
Definition well_formed_batch (batch : list Point) : Prop :=
  batch <> []
  /\ (length batch <= vectorBatchSize)%nat
  /\ Forall (fun p => is_Some (pt_vector p)) batch.

Section StoreInVectorDB.

Variable initializeCollection : M unit.
Variable upsert : list Point -> M unit.
Variable getCollection : M unit.

(** One iteration of the loop: the [try] block and its [catch], which only
    logs.  The pause cannot throw, so the [catch] is only reached with the
    count unchanged.  [more] tells whether another batch follows. *)
Definition store_batch (batch : list Point) (more : bool) (storedCount : nat) : M nat :=
  try_catch
    (_ <- upsert batch ;;
     let storedCount := (storedCount + length batch)%nat in
     _ <- (if more then wait 1000 else ret tt) ;;
     ret storedCount)
    (fun _ => ret storedCount).

Fixpoint store_from (fuel : nat) (points : list Point) (storedCount : nat) : M nat :=
  match fuel, points with
  | _, [] => ret storedCount
  | O, _ => ret storedCount
  | S fuel', _ :: _ =>
      let batch := firstn vectorBatchSize points in
      let rest := skipn vectorBatchSize points in
      storedCount <- store_batch batch (negb (length rest =? 0)%nat) storedCount ;;
      store_from fuel' rest storedCount
  end.

Definition storeInVectorDB (articlesWithEmbeddings : list EmbeddedArticle) : M nat :=
  _ <- initializeCollection ;;
  let articlesWithValidEmbeddings := List.filter has_embedding articlesWithEmbeddings in
  if (length articlesWithValidEmbeddings =? 0)%nat then ret 0%nat
  else
    let points := map to_point articlesWithValidEmbeddings in
    storedCount <- store_from (length points) points 0 ;;
    _ <- try_catch getCollection (fun _ => ret tt) ;;
    ret storedCount.

(** The client takes every batch that is well formed. *)
Definition accepts_batches : Prop :=
  forall batch e w, well_formed_batch batch -> exists w', upsert batch e w = (Ok tt, w').

(** The client refuses every batch. *)
Definition refuses_batches : Prop :=
  forall batch e w, exists err w', upsert batch e w = (Throw err, w').

End StoreInVectorDB.

(** Two articles as [createEmbeddings] leaves them, one with its vector and
    one with an error. *)
Definition sample_embedded : list EmbeddedArticle :=
  [ mkEmbeddedArticle article_one (Some sample_vector) None 0 (Some modelName) (Some 3);
    failed invalid_embedding_message 0 article_two ].

(** ** services/cacheService.js: the session helpers

    They use the key of routes/session.js, [session:<id>].  The parsed
    document is returned whatever its shape. *)

Definition getSessionFromCache (sessionId : jsstring) : M (option RedisVal) :=
  try_catch
    (data <- redisClient_get (session_key sessionId) ;;
     ret data)
    (fun _ => ret None).

Definition updateSessionCache (sessionId : jsstring) (sessionData : RedisVal)
    (ttl : option Z) : M bool :=
  try_catch
    (let ttl := match ttl with Some t => t | None => 86400%Z end in
     _ <- redisClient_setEx (session_key sessionId) ttl sessionData ;;
     ret true)
    (fun _ => ret false).

Definition sample_stored_session : Session :=
  mkSession session_s 5 9 1 [mkMessage (lit "m-1") user (CStr sample_query) 9].
(* ===================================================================== *)
(** * Properties *)
(* ===================================================================== *)

(** ** The log of outbound calls *)

Lemma count_events_app p t1 t2 :
  count_events p (t1 ++ t2) = (count_events p t1 + count_events p t2)%nat.
Proof. unfold count_events. by rewrite List.filter_app, length_app. Qed.

Lemma calls_log p ev w :
  calls p (log ev w) = (calls p w + (if p ev then 1 else 0))%nat.
Proof.
  unfold calls, log; simpl. rewrite count_events_app.
  unfold count_events; simpl. by destruct (p ev).
Qed.

Lemma after_nil w : after w [] = w.
Proof. destruct w; unfold after; simpl. f_equal; [lia | by rewrite app_nil_r]. Qed.

Lemma after_after w evs1 evs2 : after (after w evs1) evs2 = after w (evs1 ++ evs2).
Proof.
  unfold after; simpl. f_equal.
  - induction evs1 as [|[] evs1 IH]; simpl in *; lia.
  - by rewrite app_assoc.
Qed.

Lemma log_after ev w : is_wait ev = false -> log ev w = after w [ev].
Proof. destruct w, ev; intros; try discriminate; unfold log, after; simpl; f_equal; lia. Qed.

Lemma wait_after ms e w : wait ms e w = (Ok tt, after w [EvWait ms]).
Proof. unfold wait, after; simpl. do 2 f_equal. lia. Qed.

Lemma calls_after p w evs : calls p (after w evs) = (calls p w + count_events p evs)%nat.
Proof. unfold calls, after; simpl. apply count_events_app. Qed.

Lemma generate_after prompt e w :
  model_generateContent prompt e w
  = (generateContent e (calls is_generate w) prompt, after w [EvGenerate prompt]).
Proof. unfold model_generateContent. by rewrite log_after. Qed.


Lemma embed_one_ok text e w vs w1 :
  embed [text] e w = (Ok vs, w1) -> w1 = log (EvEmbed [text]) w.
Proof.
  unfold embed, try_catch, model_batchEmbedContents, throw.
  destruct (batchEmbedContents e (calls is_embed w) [text]); congruence.
Qed.

Lemma embedSingle_ok text e w v w1 :
  embedSingle text e w = (Ok v, w1) -> w1 = log (EvEmbed [text]) w.
Proof.
  unfold embedSingle, bind, ret.
  destruct (embed [text] e w) as [[vs|err] w2] eqn:Hembed; [|congruence].
  intros [= _ <-]. by eapply embed_one_ok.
Qed.

(** C1: when the vector search returns no hit, the RAG query processor of
    server.js answers with the fixed "no relevant information" text, no
    sources and [hasRelevantContext = false], and the only outbound calls of
    the query are the embedding and the search: the model is not called. *)
Theorem processRAGQuery_zero_hits e w query sessionId v w1 :
  embedSingle query e w = (Ok v, w1) ->
  qdrant_search e (calls is_search w1)
                (mkSearchReq (collectionName e) v 3 (Some (1, 2)%Z) None) = Ok [] ->
  exists w',
    processRAGQuery query sessionId e w
      = (Ok (mkResponse (Some no_relevant_information) [] false), w')
    /\ w_trace w' = w_trace w ++ [EvEmbed [query];
                                  EvSearch (mkSearchReq (collectionName e) v 3
                                                        (Some (1, 2)%Z) None)]
    /\ calls is_generate w' = calls is_generate w.
Proof.
  intros Hembed Hsearch.
  pose proof (embedSingle_ok _ _ _ _ _ Hembed) as ->.
  eexists. unfold processRAGQuery, bind, ask, qdrant_client_search.
  rewrite Hembed, Hsearch. simpl. split; [reflexivity|]. split.
  - unfold log; simpl. by rewrite <- app_assoc.
  - rewrite !calls_log; simpl; lia.
Qed.

Lemma processRAGQuery_zero_hits_witness :
  exists w',
    processRAGQuery sample_query sample_session env_no_hits world_init
      = (Ok (mkResponse (Some no_relevant_information) [] false), w')
    /\ w_trace w' = w_trace world_init
                    ++ [EvEmbed [sample_query];
                        EvSearch (mkSearchReq (collectionName env_no_hits)
                                              (Some sample_vector) 3 (Some (1, 2)%Z) None)]
    /\ calls is_generate w' = calls is_generate world_init.
Proof.
  apply (processRAGQuery_zero_hits env_no_hits world_init sample_query sample_session
           (Some sample_vector) (log (EvEmbed [sample_query]) world_init));
    reflexivity.
Defined.

(** ** server.js: the generation call *)

Lemma safeGenerateContent_from_step prompt retries remaining i e w :
  safeGenerateContent_from prompt retries (S remaining) i e w =
  match generateContent e (calls is_generate w) prompt with
  | Ok text => (Ok (Some text), after w [EvGenerate prompt])
  | Throw err =>
      if (bool_decide (e_status err = Some 503%Z) && (i <? retries - 1)%Z)%bool then
        safeGenerateContent_from prompt retries remaining (i + 1)%Z e
          (after w [EvGenerate prompt; EvWait (Z.to_N (1000 * 2 ^ i))])
      else if (i =? retries - 1)%Z then
        (Ok (Some apology), after w [EvGenerate prompt])
      else
        safeGenerateContent_from prompt retries remaining (i + 1)%Z e
          (after w [EvGenerate prompt])
  end.
Proof.
  cbn [safeGenerateContent_from]. unfold bind at 1. unfold attempt, ret.
  rewrite generate_after.
  destruct (generateContent e (calls is_generate w) prompt) as [text|err]. 1: reflexivity.
  destruct (bool_decide (e_status err = Some 503%Z) && (i <? retries - 1)%Z)%bool;
    [|by destruct (i =? retries - 1)%Z].
  unfold bind. rewrite wait_after, after_after. done.
Qed.

Lemma safeGenerateContent_three e w prompt :
  let n := calls is_generate w in
  let g := EvGenerate prompt in
  let o0 := generateContent e n prompt in
  let o1 := generateContent e (n + 1) prompt in
  let o2 := generateContent e (n + 2) prompt in
  safeGenerateContent prompt 3 e w =
  match o0 with
  | Ok t => (Ok (Some t), after w [g])
  | Throw _ =>
      match o1 with
      | Ok t => (Ok (Some t), after w ([g] ++ backoff o0 0 ++ [g]))
      | Throw _ =>
          (match o2 with Ok t => Ok (Some t) | Throw _ => Ok (Some apology) end,
           after w ([g] ++ backoff o0 0 ++ [g] ++ backoff o1 1 ++ [g]))
      end
  end.
Proof.
  intros n g o0 o1 o2. subst o0 o1 o2 n g.
  unfold safeGenerateContent. change (Z.to_nat 3) with 3%nat.
  rewrite safeGenerateContent_from_step.
  change (0 <? 3 - 1)%Z with true. change (0 =? 3 - 1)%Z with false.
  destruct (generateContent e (calls is_generate w) prompt) as [t0|e0]; [done|].
  rewrite andb_true_r. cbn [backoff].
  destruct (bool_decide (e_status e0 = Some 503%Z));
    rewrite safeGenerateContent_from_step, calls_after;
    unfold count_events; simpl List.filter; simpl length;
    change (0 + 1 <? 3 - 1)%Z with true; change (0 + 1 =? 3 - 1)%Z with false;
    (destruct (generateContent e (calls is_generate w + 1) prompt) as [t1|e1];
       [by rewrite after_after|]);
    rewrite andb_true_r; cbn [backoff];
    (destruct (bool_decide (e_status e1 = Some 503%Z));
       rewrite safeGenerateContent_from_step, !after_after, calls_after;
       unfold count_events; simpl List.filter; simpl length;
       change (0 + 1 + 1 <? 3 - 1)%Z with false; change (0 + 1 + 1 =? 3 - 1)%Z with true;
       (destruct (generateContent e (calls is_generate w + 2) prompt) as [t2|e2];
          [reflexivity | rewrite andb_false_r; reflexivity])).
Qed.

(** C3, as the code has it: with its default of three retries the generation
    call always returns text and never throws; it makes between one and three
    attempts, a further attempt being made after every failed attempt but the
    third; it waits 1000 * 2^i ms after attempt [i] exactly when that attempt
    failed with status 503 (other errors are retried at once); it returns the
    text of the first successful attempt, and the fixed apology when all
    three attempts fail. *)
Theorem safeGenerateContent_retry_policy e w prompt :
  let n := calls is_generate w in
  let outcome k := generateContent e (n + k) prompt in
  exists text evs,
    safeGenerateContent prompt 3 e w = (Ok (Some text), after w evs)
    /\ let attempts := count_events is_generate evs in
       (1 <= attempts <= 3)%nat
       /\ (forall k, (k < attempts - 1)%nat -> exists err, outcome k = Throw err)
       /\ (outcome (attempts - 1)%nat = Ok text
           \/ (attempts = 3%nat /\ text = apology
               /\ exists err, outcome 2%nat = Throw err))
       /\ List.filter is_wait evs
          = flat_map (fun k => backoff (outcome k) (Z.of_nat k)) (seq 0 (attempts - 1)).
Proof.
  intros n outcome. rewrite safeGenerateContent_three. fold n.
  assert (H0 : outcome 0%nat = generateContent e n prompt)
    by (unfold outcome; by rewrite Nat.add_0_r).
  change (generateContent e (n + 1) prompt) with (outcome 1%nat).
  change (generateContent e (n + 2) prompt) with (outcome 2%nat).
  rewrite <- H0. clear H0.
  destruct (outcome 0%nat) as [t0|e0] eqn:E0.
  { exists t0, [EvGenerate prompt]. split; [done|]. cbn.
    rewrite E0. repeat split; try lia; auto. }
  destruct (outcome 1%nat) as [t1|e1] eqn:E1.
  { eexists t1, _. split; [done|]. unfold backoff.
    destruct (bool_decide (e_status e0 = Some 503%Z)) eqn:B0; cbn; rewrite ?E0, ?E1; cbn;
      rewrite ?B0; (repeat split; try lia; auto);
      intros [|k] Hk; try lia; rewrite E0; eauto. }
  destruct (outcome 2%nat) as [t2|e2] eqn:E2.
  all: eexists _, _; (split; [done|]); unfold backoff;
    destruct (bool_decide (e_status e0 = Some 503%Z)) eqn:B0;
    destruct (bool_decide (e_status e1 = Some 503%Z)) eqn:B1; cbn;
    rewrite ?E0, ?E1, ?E2; cbn; rewrite ?B0, ?B1; (repeat split; try lia; eauto);
    intros [|[|k]] Hk; try lia; rewrite ?E0, ?E1; eauto.
Qed.

(** C3, counterexample: the first attempt fails with status 400, which is not
    the overload signal, yet the call does not return the apology: it makes a
    second attempt and returns that attempt's text. *)
Lemma safeGenerateContent_retries_other_errors :
  generateContent env_flaky_model (calls is_generate world_init) sample_query
    = Throw bad_request
  /\ e_status bad_request <> Some 503%Z
  /\ fst (safeGenerateContent sample_query 3 env_flaky_model world_init)
     = Ok (Some (lit "generated"))
  /\ fst (safeGenerateContent sample_query 3 env_flaky_model world_init)
     <> Ok (Some apology)
  /\ calls is_generate (snd (safeGenerateContent sample_query 3 env_flaky_model world_init))
     = 2%nat.
Proof. repeat split; try reflexivity; discriminate. Qed.

(** ** The vector store fails *)

Lemma processRAGQuery_search_throws e w query sessionId v w1 err :
  embedSingle query e w = (Ok v, w1) ->
  qdrant_search e (calls is_search w1)
                (mkSearchReq (collectionName e) v 3 (Some (1, 2)%Z) None) = Throw err ->
  fst (processRAGQuery query sessionId e w) = Throw err.
Proof.
  intros Hembed Hsearch.
  unfold processRAGQuery, bind, ask, qdrant_client_search.
  by rewrite Hembed, Hsearch.
Qed.

(** The sibling path in ragService.js turns the same failure into an empty
    result. *)
Lemma retrieveRelevantDocs_search_throws e w v k err :
  qdrant_search e (calls is_search w)
                (mkSearchReq (collectionName e) v k None (Some true)) = Throw err ->
  retrieveRelevantDocs v k e w
  = (Ok [], log (EvSearch (mkSearchReq (collectionName e) v k None (Some true))) w).
Proof.
  intros Hsearch.
  unfold retrieveRelevantDocs, try_catch, bind, ask, qdrant_client_search, ret.
  by rewrite Hsearch.
Qed.

(** C5, the code at the failing input: with the vector store unreachable the
    RAG query processor of server.js returns no response object; the error
    of the search leaves it as an exception, which is what its callers in
    the transport layer receive. *)
Theorem processRAGQuery_search_failure_escapes :
  fst (processRAGQuery sample_query sample_session env_search_down world_init)
  = Throw unreachable.
Proof.
  apply (processRAGQuery_search_throws env_search_down world_init sample_query
           sample_session (Some sample_vector) (log (EvEmbed [sample_query]) world_init));
    reflexivity.
Qed.

(** ** services/ragService.js *)

Section RagServiceFacts.

Variable getCachedResponse_body : jsstring -> jsstring -> M (option jsstring).
Variable cacheResponse_body : jsstring -> jsstring -> option jsstring -> M unit.
Variable generateEmbedding_body : jsstring -> M (option vector).
Variable generateAnswer_body : jsstring -> M (option jsstring).

Let answerQuery' :=
  answerQuery getCachedResponse_body cacheResponse_body generateEmbedding_body
              generateAnswer_body.

(** The cache service defines neither of the two names the RAG service
    calls. *)
Lemma cacheService_lacks_response_methods :
  existsb (String.eqb "getCachedResponse") cacheService_members = false
  /\ existsb (String.eqb "cacheResponse") cacheService_members = false.
Proof. split; reflexivity. Qed.

Lemma answerQuery_fails e w sessionId query :
  answerQuery' sessionId query e w = (Ok something_went_wrong, w).
Proof. reflexivity. Qed.

(** C2, the code on any two calls: whatever the session id and the queries,
    both calls of [answerQuery] stop at the cache lookup (a call of a name
    the cache service does not define), return the fixed failure text,
    leave the world as it was and write no cache entry; the second answer
    carries no [fromCache] mark and is not the result of a cache hit. *)
Theorem answerQuery_twice_no_cache e w sessionId query1 query2 :
  let first := answerQuery' sessionId query1 e w in
  let second := answerQuery' sessionId query2 e (snd first) in
  fst first = Ok something_went_wrong
  /\ fst second = Ok something_went_wrong
  /\ snd second = w.
Proof. repeat split. Qed.

End RagServiceFacts.

(** ** routes/session.js *)

Lemma updateSessionActivity_absent sessionId userMessage botResponse e w :
  redis_live w (session_key sessionId) = None ->
  updateSessionActivity sessionId userMessage botResponse e w
  = (Ok false, log (EvRedisGet (session_key sessionId)) w).
Proof.
  intros Hgone.
  unfold updateSessionActivity, try_catch, bind, redisClient_get, ret.
  rewrite Hgone. by destruct (redis_up e (calls is_redis w)).
Qed.

Lemma redis_live_log ev w key : redis_live (log ev w) key = redis_live w key.
Proof. reflexivity. Qed.

(** The update never raises: every exception inside it is caught and
    reported as [false]. *)
Lemma updateSessionActivity_never_throws sessionId userMessage botResponse e w :
  exists b w', updateSessionActivity sessionId userMessage botResponse e w = (Ok b, w').
Proof.
  unfold updateSessionActivity, try_catch.
  match goal with
  | |- context [match ?c e w with _ => _ end] => destruct (c e w) as [[b|err] w1]
  end; by eexists _, _.
Qed.

(** [POST /message] with a message and a session id: the first session
    update runs; then the call of [processRAGQuery] throws, because
    services/ragService.js exports no member of that name, and the [catch]
    answers 500.  The second update and the answer are never reached. *)
Lemma post_message_import_fails
    (body : jsstring -> jsstring -> Z -> M Response) e w message sessionId topK :
  message <> [] ->
  sessionId <> [] ->
  post_message body (Some message) (Some sessionId) topK e w
  = (Ok (mkHttpRes 500 (BFailure (lit "Failed to process message"))),
     snd (updateSessionActivity sessionId (CStr message) CUndef e w)).
Proof.
  intros Hm Hs. destruct message as [|c m]; [done|]. destruct sessionId as [|d s]; [done|].
  destruct (updateSessionActivity_never_throws (d :: s) (CStr (c :: m)) CUndef e w)
    as (b & w1 & Hrun).
  unfold post_message, try_catch. unfold bind at 1. rewrite Hrun. reflexivity.
Qed.

(** C8, the code on a turn for a session id that is absent or expired.  The
    session update of [POST /message] reports [false] without raising and
    writes nothing, so no session error reaches the handler.  The answer,
    however, is not returned: the handler's call of [processRAGQuery] throws
    (the import is undefined) and the request is answered with status 500
    and "Failed to process message"; the store is as it was. *)
Theorem post_message_absent_session_no_answer
    (body : jsstring -> jsstring -> Z -> M Response)
    e w message sessionId topK :
  message <> [] ->
  sessionId <> [] ->
  redis_live w (session_key sessionId) = None ->
  let run := post_message body (Some message) (Some sessionId) topK e w in
  updateSessionActivity sessionId (CStr message) CUndef e w
    = (Ok false, log (EvRedisGet (session_key sessionId)) w)
  /\ fst run = Ok (mkHttpRes 500 (BFailure (lit "Failed to process message")))
  /\ w_redis (snd run) = w_redis w
  /\ redis_live (snd run) (session_key sessionId) = None.
Proof.
  intros Hm Hs Hgone run.
  pose proof (updateSessionActivity_absent sessionId (CStr message) CUndef e w Hgone) as H1.
  unfold run. rewrite post_message_import_fails by done. rewrite H1.
  repeat split; try reflexivity. exact Hgone.
Qed.

Lemma post_message_absent_session_no_answer_witness :
  let run := post_message (fun m s _ => processRAGQuery m s) (Some sample_query)
               (Some sample_session) None env_one_hit world_init in
  updateSessionActivity sample_session (CStr sample_query) CUndef env_one_hit world_init
    = (Ok false, log (EvRedisGet (session_key sample_session)) world_init)
  /\ fst run = Ok (mkHttpRes 500 (BFailure (lit "Failed to process message")))
  /\ w_redis (snd run) = w_redis world_init
  /\ redis_live (snd run) (session_key sample_session) = None.
Proof.
  apply (post_message_absent_session_no_answer (fun m s _ => processRAGQuery m s)
           env_one_hit world_init sample_query sample_session None).
  - discriminate.
  - discriminate.
  - reflexivity.
Defined.

(** ** The message count of stored sessions *)

Section Preservation.

Variable I : World -> Prop.
Hypothesis I_redis : forall w w', w_redis w' = w_redis w -> I w -> I w'.

Lemma preserves_ret {A} (a : A) : preserves I (ret a).
Proof. intros e w r w' HI [= _ <-]. exact HI. Qed.

Lemma preserves_throw {A} err : preserves I (@throw A err).
Proof. intros e w r w' HI [= _ <-]. exact HI. Qed.

Lemma preserves_bind {A B} (c : M A) (k : A -> M B) :
  preserves I c -> (forall a, preserves I (k a)) -> preserves I (bind c k).
Proof.
  intros Hc Hk e w r w' HI. unfold bind.
  destruct (c e w) as [[a|err] w1] eqn:Hrun.
  - intros Hrest. eapply Hk; [|exact Hrest]. eapply Hc; eauto.
  - intros [= _ <-]. eapply Hc; eauto.
Qed.

Lemma preserves_try_catch {A} (c : M A) (h : Err -> M A) :
  preserves I c -> (forall err, preserves I (h err)) -> preserves I (try_catch c h).
Proof.
  intros Hc Hh e w r w' HI. unfold try_catch.
  destruct (c e w) as [[a|err] w1] eqn:Hrun.
  - intros [= _ <-]. eapply Hc; eauto.
  - intros Hrest. eapply Hh; [|exact Hrest]. eapply Hc; eauto.
Qed.

Lemma preserves_ask {A} (f : Env -> A) : preserves I (ask f).
Proof. intros e w r w' HI [= _ <-]. exact HI. Qed.

Lemma preserves_now : preserves I now.
Proof. intros e w r w' HI [= _ <-]. exact HI. Qed.

Lemma preserves_uuid : preserves I uuid.
Proof. intros e w r w' HI [= _ <-]. eapply I_redis; [|exact HI]. reflexivity. Qed.

Lemma preserves_get key : preserves I (redisClient_get key).
Proof.
  intros e w r w' HI. unfold redisClient_get.
  destruct (redis_up e (calls is_redis w)); intros [= _ <-];
    (eapply I_redis; [|exact HI]); reflexivity.
Qed.

End Preservation.

Lemma counts_consistent_redis w w' :
  w_redis w' = w_redis w -> counts_consistent w -> counts_consistent w'.
Proof. unfold counts_consistent. intros ->. auto. Qed.

Lemma preserves_setEx_session key ttl s :
  messageCount s = N.of_nat (length (messages s)) ->
  preserves counts_consistent (redisClient_setEx key ttl (RSession s)).
Proof.
  intros Hs e w r w' HI. unfold redisClient_setEx.
  destruct (redis_up e (calls is_redis w) && (0 <? ttl)%Z)%bool; intros [= _ <-].
  - intros key' s' expires. simpl. rewrite lookup_insert.
    case_decide; [intros [= <- _]; exact Hs | apply HI].
  - exact HI.
Qed.

Ltac keeps_leaf :=
  first [ apply preserves_ret | apply preserves_throw | apply preserves_ask
        | apply preserves_now | apply preserves_uuid | apply preserves_get ];
  try exact counts_consistent_redis.

Ltac keeps :=
  repeat first
    [ apply preserves_try_catch; [|intros ?]
    | apply preserves_bind; [|intros ?]
    | apply preserves_setEx_session
    | solve [keeps_leaf] ].

Lemma create_session_keeps_counts : preserves counts_consistent create_session.
Proof. unfold create_session. keeps. reflexivity. Qed.

Lemma clear_session_keeps_counts sessionId :
  preserves counts_consistent (clear_session sessionId).
Proof.
  unfold clear_session. keeps.
  match goal with |- preserves _ (match ?x with _ => _ end) => destruct x as [[s|d]|] end;
    keeps. reflexivity.
Qed.

Lemma updateSessionActivity_keeps_counts sessionId userMessage botResponse :
  preserves counts_consistent (updateSessionActivity sessionId userMessage botResponse).
Proof.
  unfold updateSessionActivity. keeps.
  match goal with |- preserves _ (match ?x with _ => _ end) => destruct x as [[s|d]|] end;
    keeps.
  - destruct (truthy botResponse); keeps.
  - reflexivity.
Qed.

Lemma session_step_keeps_counts e w op :
  counts_consistent w -> counts_consistent (session_step e w op).
Proof.
  intros HI. destruct op as [|sessionId userMessage botResponse|sessionId|ms]; simpl.
  - eapply create_session_keeps_counts; [exact HI|apply surjective_pairing].
  - eapply updateSessionActivity_keeps_counts; [exact HI|apply surjective_pairing].
  - eapply clear_session_keeps_counts; [exact HI|apply surjective_pairing].
  - exact HI.
Qed.

Lemma session_run_keeps_counts e ops w :
  counts_consistent w -> counts_consistent (session_run e ops w).
Proof.
  revert w. induction ops as [|op ops IH]; intros w HI; simpl; [exact HI|].
  apply IH. by apply session_step_keeps_counts.
Qed.

(** C10: after any sequence of session creations, activity updates and
    clears (with the clock advancing in between, keys expiring and Redis
    commands failing as the environment decides), every session document in
    the store has [messageCount] equal to the length of its message list. *)
Theorem messageCount_is_length e ops key s expires :
  w_redis (session_run e ops world_init) !! key = Some (RSession s, expires) ->
  messageCount s = N.of_nat (length (messages s)).
Proof.
  apply (session_run_keeps_counts e ops world_init).
  intros key' s' expires'. unfold world_init; simpl. by rewrite lookup_empty.
Qed.

Lemma messageCount_is_length_witness :
  exists s expires,
    w_redis (session_run env_one_hit
               [OpCreate; OpUpdate sample_session (CStr sample_query) CUndef;
                OpTick 5; OpUpdate sample_session CNull (CStr (lit "generated"))]
               world_init) !! session_key sample_session
    = Some (RSession s, expires)
    /\ length (messages s) = 3%nat
    /\ messageCount s = N.of_nat (length (messages s)).
Proof.
  eexists _, _. split; [vm_compute; reflexivity|]. split; [reflexivity|].
  eapply (messageCount_is_length env_one_hit
            [OpCreate; OpUpdate sample_session (CStr sample_query) CUndef;
             OpTick 5; OpUpdate sample_session CNull (CStr (lit "generated"))]
            (session_key sample_session)).
  vm_compute. reflexivity.
Defined.

(** ** scripts/ingestNews.js: one embedding batch *)

Lemma attach_articles batch vs t : map ea_article (attach batch vs t) = batch.
Proof.
  revert vs. induction batch as [|a batch IH]; intros vs; simpl; [done|].
  rewrite IH. by destruct vs as [|[v|] vs].
Qed.

Lemma attach_embeddings batch vs t :
  length vs = length batch -> map embedding (attach batch vs t) = vs.
Proof.
  revert vs. induction batch as [|a batch IH]; intros [|v vs] Hlen; simpl in *; try done.
  rewrite IH by lia. by destruct v.
Qed.

Lemma embed_clock texts e w r w1 : embed texts e w = (r, w1) -> w_now w1 = w_now w.
Proof.
  destruct texts as [|t texts]; simpl.
  - by intros [= _ <-].
  - unfold try_catch, model_batchEmbedContents, throw.
    destruct (batchEmbedContents e (calls is_embed w) (t :: texts)); by intros [= _ <-].
Qed.

(** C7: one batch of [createEmbeddings].  When the embedding call answers
    with a number of vectors other than the number of articles, the whole
    batch fails: every article of the batch is recorded without a vector and
    with the mismatch error, so no vector is attached to any text.  When the
    numbers agree, the articles come out in their input order and article
    [j] carries vector [j]. *)
Theorem embed_batch_cardinality e w batch more vs w1 :
  embed (map embedding_text batch) e w = (Ok vs, w1) ->
  exists done,
    fst (embed_batch batch more e w) = Ok done
    /\ map ea_article done = batch
    /\ (length vs <> length batch ->
          Forall (fun ea => embedding ea = None
                            /\ embeddingError ea
                               = Some (mismatch_message (length vs) (length batch))) done)
    /\ (length vs = length batch -> map embedding done = vs).
Proof.
  intros Hembed. unfold embed_batch, try_catch. unfold bind at 1. rewrite Hembed.
  destruct (Nat.eqb_spec (length vs) (length batch)) as [Heq|Hne]; simpl negb; cbv iota.
  - exists (attach batch vs (w_now w1)). unfold bind, now.
    destruct more; simpl; (split; [reflexivity|]);
      (split; [apply attach_articles|]); (split; [done|]);
      intros _; by apply attach_embeddings.
  - eexists. unfold throw, bind, now, ret. simpl. split; [reflexivity|].
    split; [|split; [|done]].
    + rewrite map_map. simpl. apply map_id.
    + intros _. generalize (mismatch_message (length vs) (length batch)) as msg.
      intros msg. clear. induction batch as [|a batch IH]; simpl; by constructor.
Qed.

Lemma embed_batch_cardinality_witness :
  (exists done,
     fst (embed_batch [article_one; article_two] false env_short_batch world_init) = Ok done
     /\ map ea_article done = [article_one; article_two]
     /\ Forall (fun ea => embedding ea = None
                          /\ embeddingError ea = Some (mismatch_message 1 2)) done)
  /\ (exists done,
        fst (embed_batch [article_one; article_two] false env_one_hit world_init) = Ok done
        /\ map ea_article done = [article_one; article_two]
        /\ map embedding done = [Some sample_vector; Some sample_vector]).
Proof.
  split.
  - destruct (embed_batch_cardinality env_short_batch world_init
                [article_one; article_two] false [Some sample_vector]
                (log (EvEmbed (map embedding_text [article_one; article_two])) world_init)
                eq_refl) as (done & Hrun & Harticles & Hfail & _).
    exists done. split; [exact Hrun|]. split; [exact Harticles|].
    apply Hfail. simpl. lia.
  - destruct (embed_batch_cardinality env_one_hit world_init
                [article_one; article_two] false [Some sample_vector; Some sample_vector]
                (log (EvEmbed (map embedding_text [article_one; article_two])) world_init)
                eq_refl) as (done & Hrun & Harticles & _ & Hok).
    exists done. split; [exact Hrun|]. split; [exact Harticles|].
    apply Hok. reflexivity.
Defined.

(** C7, counterexample: [embed] itself does not compare the counts.  Two
    texts are submitted as one batch, the service answers with one vector,
    and [embed] returns that one vector without an error: the check is the
    one of [createEmbeddings], not of the embedding call. *)
Lemma embed_returns_mismatch_unchecked :
  let texts := [lit "first text"; lit "second text"] in
  fst (embed texts env_short_batch world_init) = Ok [Some sample_vector]
  /\ length [Some sample_vector] <> length texts.
Proof. split; [reflexivity|discriminate]. Qed.

(** ** server.js: the socket session registry *)

Lemma elem_of_room_members io room id :
  id ∈ room_members io room <-> exists rooms, sockets io !! id = Some rooms /\ room ∈ rooms.
Proof.
  unfold room_members. rewrite elem_of_dom. unfold is_Some.
  setoid_rewrite map_lookup_filter_Some. simpl. naive_solver.
Qed.














(** ** services/cacheService.js: the cache key *)

(** *** Arithmetic of the two encodings *)

Ltac euclid x k :=
  let H1 := fresh "Hdiv" in
  let H2 := fresh "Hmod" in
  assert (H1 : x = k * (x / k) + x mod k) by (apply N.div_mod; discriminate);
  assert (H2 : x mod k < k) by (apply N.mod_lt; discriminate).

Lemma pack_div x y k : y < k -> (x * k + y) / k = x.
Proof. intros Hy. symmetry. apply N.div_unique with y; lia. Qed.

Lemma pack_mod x y k : y < k -> (x * k + y) mod k = y.
Proof. intros Hy. symmetry. apply N.mod_unique with x; lia. Qed.

Lemma utf8_two_bytes u :
  128 <= u -> u < 2048 ->
  (192 + u / 64 <? 128) = false /\ (192 + u / 64 <? 224) = true
  /\ (192 + u / 64 - 192) * 64 + (128 + u mod 64 - 128) = u
  /\ 192 + u / 64 < 256 /\ 128 + u mod 64 < 256.
Proof.
  intros Hlo Hhi. euclid u 64.
  generalize dependent (u / 64). generalize dependent (u mod 64). intros r Hr q Hq.
  repeat split; try lia; [apply N.ltb_ge; lia | apply N.ltb_lt; lia].
Qed.

Lemma utf8_three_bytes u :
  2048 <= u -> u < 65536 ->
  (224 + u / 4096 <? 128) = false /\ (224 + u / 4096 <? 224) = false
  /\ (224 + u / 4096 <? 240) = true
  /\ (224 + u / 4096 - 224) * 4096 + (128 + (u / 64) mod 64 - 128) * 64
     + (128 + u mod 64 - 128) = u
  /\ 224 + u / 4096 < 256 /\ 128 + (u / 64) mod 64 < 256 /\ 128 + u mod 64 < 256.
Proof.
  intros Hlo Hhi.
  replace (u / 4096) with (u / 64 / 64) by (by rewrite N.Div0.div_div).
  euclid u 64. euclid (u / 64) 64.
  generalize dependent (u / 64 / 64). generalize dependent ((u / 64) mod 64).
  generalize dependent (u / 64). generalize dependent (u mod 64).
  intros r0 q0 Hr0 Hq0 r1 Hr1 q1 Hq1.
  repeat split; try lia; [apply N.ltb_ge; lia | apply N.ltb_ge; lia | apply N.ltb_lt; lia].
Qed.

Lemma utf8_four_bytes cp :
  cp < 1114112 ->
  let b0 := 240 + cp / 262144 in
  let b1 := 128 + (cp / 4096) mod 64 in
  let b2 := 128 + (cp / 64) mod 64 in
  let b3 := 128 + cp mod 64 in
  (b0 <? 128) = false /\ (b0 <? 224) = false /\ (b0 <? 240) = false
  /\ (b0 - 240) * 262144 + (b1 - 128) * 4096 + (b2 - 128) * 64 + (b3 - 128) = cp
  /\ b0 < 256 /\ b1 < 256 /\ b2 < 256 /\ b3 < 256.
Proof.
  intros Hcp. cbv zeta.
  replace (cp / 262144) with (cp / 64 / 64 / 64) by (by rewrite !N.Div0.div_div).
  replace (cp / 4096) with (cp / 64 / 64) by (by rewrite N.Div0.div_div).
  euclid cp 64. euclid (cp / 64) 64. euclid (cp / 64 / 64) 64.
  generalize dependent (cp / 64 / 64 / 64). generalize dependent ((cp / 64 / 64) mod 64).
  generalize dependent (cp / 64 / 64). generalize dependent ((cp / 64) mod 64).
  generalize dependent (cp / 64). generalize dependent (cp mod 64).
  intros. repeat split; try lia; apply N.ltb_ge; lia.
Qed.

Lemma surrogate_pair_code_point u l :
  55296 <= u -> u < 56320 -> 56320 <= l -> l < 57344 ->
  let cp := 65536 + (u - 55296) * 1024 + (l - 56320) in
  cp < 1114112
  /\ 55296 + (cp - 65536) / 1024 = u /\ 56320 + (cp - 65536) mod 1024 = l.
Proof.
  intros Hu1 Hu2 Hl1 Hl2 cp. split; [unfold cp; lia|].
  replace (cp - 65536) with ((u - 55296) * 1024 + (l - 56320)) by (unfold cp; lia).
  rewrite pack_div, pack_mod by lia. lia.
Qed.

Lemma base64_sextets a b c :
  a < 256 -> b < 256 -> c < 256 ->
  let v0 := a / 4 in
  let v1 := (a mod 4) * 16 + b / 16 in
  let v2 := (b mod 16) * 4 + c / 64 in
  let v3 := c mod 64 in
  (v0 < 64 /\ v1 < 64 /\ v2 < 64 /\ v3 < 64)
  /\ v0 * 4 + v1 / 16 = a
  /\ (v1 mod 16) * 16 + v2 / 4 = b
  /\ (v2 mod 4) * 64 + v3 = c.
Proof.
  intros Ha Hb Hc. cbv zeta.
  euclid a 4. euclid b 16. euclid c 64.
  assert (Hb16 : b / 16 < 16) by (generalize dependent (b mod 16); intros; lia).
  assert (Hc64 : c / 64 < 4) by (generalize dependent (c mod 64); intros; lia).
  rewrite !pack_div, !pack_mod by lia.
  generalize dependent (a / 4). generalize dependent (a mod 4).
  generalize dependent (b / 16). generalize dependent (b mod 16).
  generalize dependent (c / 64). generalize dependent (c mod 64).
  intros. repeat split; lia.
Qed.

Lemma base64_digit_value v : v < 64 -> base64_value (base64_digit v) = v /\ printable_ascii (base64_digit v) = true /\ base64_digit v <> base64_pad.
Proof.
  intros Hv. unfold base64_digit.
  assert (Hn : (N.to_nat v < 64)%nat) by lia.
  rewrite <- (N2Nat.id v) at 2.
  revert Hn. generalize (N.to_nat v) as n. clear. intros n Hn.
  do 64 (destruct n as [|n]; [vm_compute; repeat split; congruence|]).
  lia.
Qed.

(** Turns boolean comparisons in the hypotheses into arithmetic facts. *)
Ltac bools :=
  repeat match goal with
  | H : (_ && _)%bool = true |- _ => apply andb_true_iff in H as [? ?]
  | H : (_ && _)%bool = false |- _ => apply andb_false_iff in H
  | H : (_ <? _) = true |- _ => apply N.ltb_lt in H
  | H : (_ <? _) = false |- _ => apply N.ltb_ge in H
  | H : (_ <=? _) = true |- _ => apply N.leb_le in H
  | H : (_ <=? _) = false |- _ => apply N.leb_gt in H
  | H : (_ =? _) = true |- _ => apply N.eqb_eq in H
  | H : (_ =? _) = false |- _ => apply N.eqb_neq in H
  end.

Lemma list_ind_pairs (P : list N -> Prop) :
  P [] ->
  (forall u rest,
      P rest -> match rest with _ :: rest' => P rest' | [] => True end -> P (u :: rest)) ->
  forall s, P s.
Proof.
  intros Hnil Hstep s.
  assert (H : P s /\ match s with _ :: rest => P rest | [] => True end).
  { induction s as [|u rest [IH1 IH2]]; [by split|]. split; [by apply Hstep|exact IH1]. }
  apply H.
Qed.

Lemma utf8_decode_cons b0 r0 :
  utf8_decode (b0 :: r0) =
  if b0 <? 0x80 then b0 :: utf8_decode r0
  else if b0 <? 0xE0 then
    match r0 with
    | b1 :: r1 => ((b0 - 0xC0) * 64 + (b1 - 0x80)) :: utf8_decode r1
    | _ => []
    end
  else if b0 <? 0xF0 then
    match r0 with
    | b1 :: b2 :: r2 =>
        ((b0 - 0xE0) * 4096 + (b1 - 0x80) * 64 + (b2 - 0x80)) :: utf8_decode r2
    | _ => []
    end
  else
    match r0 with
    | b1 :: b2 :: b3 :: r3 =>
        let cp := (b0 - 0xF0) * 262144 + (b1 - 0x80) * 4096
                  + (b2 - 0x80) * 64 + (b3 - 0x80) in
        (0xD800 + (cp - 0x10000) / 1024) :: (0xDC00 + (cp - 0x10000) mod 1024)
        :: utf8_decode r3
    | _ => []
    end.
Proof. reflexivity. Qed.

Lemma utf8_encode_cons u rest :
  utf8_encode (u :: rest) =
  if u <? 0x80 then u :: utf8_encode rest
  else if u <? 0x800 then
    (0xC0 + u / 64) :: (0x80 + u mod 64) :: utf8_encode rest
  else if is_high_surrogate u then
    match rest with
    | l :: rest' =>
        if is_low_surrogate l then
          let cp := 0x10000 + (u - 0xD800) * 1024 + (l - 0xDC00) in
          (0xF0 + cp / 262144) :: (0x80 + (cp / 4096) mod 64)
          :: (0x80 + (cp / 64) mod 64) :: (0x80 + cp mod 64)
          :: utf8_encode rest'
        else 0xEF :: 0xBF :: 0xBD :: utf8_encode rest
    | [] => [0xEF; 0xBF; 0xBD]
    end
  else if is_low_surrogate u then 0xEF :: 0xBF :: 0xBD :: utf8_encode rest
  else
    (0xE0 + u / 4096) :: (0x80 + (u / 64) mod 64) :: (0x80 + u mod 64)
    :: utf8_encode rest.
Proof. destruct rest; reflexivity. Qed.

Lemma utf8_roundtrip_range s :
  well_formed s = true ->
  utf8_decode (utf8_encode s) = s /\ Forall (fun b => b < 256) (utf8_encode s).
Proof.
  induction s as [|u rest IH IH'] using list_ind_pairs; [by split|].
  intros Hwf. rewrite utf8_encode_cons. simpl in Hwf.
  destruct (is_high_surrogate u) eqn:Hhigh.
  - destruct rest as [|l rest']; [done|].
    apply andb_true_iff in Hwf as [Hlow Hwf]. destruct (IH' Hwf) as [Hdec Hrange].
    rewrite Hlow. unfold is_high_surrogate, is_low_surrogate in *. bools.
    replace (u <? 128) with false by (symmetry; apply N.ltb_ge; lia).
    replace (u <? 2048) with false by (symmetry; apply N.ltb_ge; lia).
    destruct (surrogate_pair_code_point u l) as (Hcp & Hu & Hl); [lia..|].
    cbv zeta in Hcp, Hu, Hl |- *.
    destruct (utf8_four_bytes _ Hcp) as (F1 & F2 & F3 & Hback & R0 & R1 & R2 & R3).
    cbv zeta in F1, F2, F3, Hback, R0, R1, R2, R3.
    rewrite utf8_decode_cons, F1, F2, F3. cbv zeta. rewrite Hback, Hu, Hl, Hdec.
    split; [done|]. by repeat constructor.
  - destruct (is_low_surrogate u) eqn:Hlow; [done|].
    apply andb_true_iff in Hwf as [Hunit Hwf]. destruct (IH Hwf) as [Hdec Hrange].
    unfold code_unit in Hunit. bools.
    destruct (u <? 128) eqn:H1; [|destruct (u <? 2048) eqn:H2]; bools.
    + rewrite utf8_decode_cons. replace (u <? 128) with true by (symmetry; by apply N.ltb_lt).
      rewrite Hdec. split; [done|]. constructor; [lia|done].
    + destruct (utf8_two_bytes u) as (F1 & F2 & Hback & R0 & R1); [lia..|].
      rewrite utf8_decode_cons, F1, F2, Hback, Hdec. split; [done|].
      by repeat constructor.
    + destruct (utf8_three_bytes u) as (F1 & F2 & F3 & Hback & R0 & R1 & R2); [lia..|].
      rewrite utf8_decode_cons, F1, F2, F3, Hback, Hdec. split; [done|].
      by repeat constructor.
Qed.

Lemma base64_decode_quad c0 c1 c2 c3 rest :
  base64_decode (c0 :: c1 :: c2 :: c3 :: rest) =
  if c2 =? base64_pad then [base64_value c0 * 4 + base64_value c1 / 16]
  else if c3 =? base64_pad then
    [base64_value c0 * 4 + base64_value c1 / 16;
     (base64_value c1 mod 16) * 16 + base64_value c2 / 4]
  else (base64_value c0 * 4 + base64_value c1 / 16)
       :: ((base64_value c1 mod 16) * 16 + base64_value c2 / 4)
       :: ((base64_value c2 mod 4) * 64 + base64_value c3)
       :: base64_decode rest.
Proof. reflexivity. Qed.

Lemma pad_printable : printable_ascii base64_pad = true.
Proof. reflexivity. Qed.

Lemma base64_roundtrip_printable bytes :
  Forall (fun b => b < 256) bytes ->
  base64_decode (base64_encode bytes) = bytes
  /\ Forall (fun c => printable_ascii c = true) (base64_encode bytes).
Proof.
  remember (length bytes) as n eqn:Hn. revert bytes Hn.
  induction n as [n IH] using lt_wf_ind. intros bytes Hn Hrange.
  destruct bytes as [|a [|b [|c rest]]]; [by split| | |].
  - apply Forall_cons in Hrange as [Ha _]. cbn [base64_encode].
    destruct (base64_sextets a 0 0) as ((S0 & S1 & _ & _) & B0 & _ & _); [lia..|].
    cbv zeta in S0, S1, B0. change (0 / 16) with 0 in S1, B0. rewrite N.add_0_r in S1, B0.
    destruct (base64_digit_value _ S0) as (V0 & P0 & _).
    destruct (base64_digit_value _ S1) as (V1 & P1 & _).
    rewrite base64_decode_quad, N.eqb_refl, V0, V1, B0. split; [done|].
    repeat constructor; auto using pad_printable.
  - apply Forall_cons in Hrange as [Ha [Hb _]%Forall_cons]. cbn [base64_encode].
    destruct (base64_sextets a b 0) as ((S0 & S1 & S2 & _) & B0 & B1 & _); [lia..|].
    cbv zeta in S0, S1, S2, B0, B1. change (0 / 64) with 0 in S2, B1.
    rewrite N.add_0_r in S2, B1.
    destruct (base64_digit_value _ S0) as (V0 & P0 & _).
    destruct (base64_digit_value _ S1) as (V1 & P1 & _).
    destruct (base64_digit_value _ S2) as (V2 & P2 & N2%N.eqb_neq).
    rewrite base64_decode_quad, N.eqb_refl, V0, V1, V2, N2, B0, B1. split; [done|].
    repeat constructor; auto using pad_printable.
  - apply Forall_cons in Hrange as [Ha [Hb [Hc Hrest]%Forall_cons]%Forall_cons].
    cbn [base64_encode].
    destruct (base64_sextets a b c) as ((S0 & S1 & S2 & S3) & B0 & B1 & B2); [lia..|].
    cbv zeta in S0, S1, S2, S3, B0, B1, B2.
    destruct (base64_digit_value _ S0) as (V0 & P0 & _).
    destruct (base64_digit_value _ S1) as (V1 & P1 & _).
    destruct (base64_digit_value _ S2) as (V2 & P2 & N2%N.eqb_neq).
    destruct (base64_digit_value _ S3) as (V3 & P3 & N3%N.eqb_neq).
    rewrite base64_decode_quad, V0, V1, V2, V3, N2, N3, B0, B1, B2.
    destruct (IH (length rest)) with (bytes := rest) as [Hdec Hprint];
      [simpl in Hn; lia|done|done|].
    rewrite Hdec. split; [done|]. by repeat constructor.
Qed.

Lemma utf8_encode_injective s1 s2 :
  well_formed s1 = true -> well_formed s2 = true ->
  utf8_encode s1 = utf8_encode s2 -> s1 = s2.
Proof.
  intros [H1 _]%utf8_roundtrip_range [H2 _]%utf8_roundtrip_range Heq.
  rewrite <- H1, <- H2. by rewrite Heq.
Qed.

Lemma base64_encode_injective b1 b2 :
  Forall (fun b => b < 256) b1 -> Forall (fun b => b < 256) b2 ->
  base64_encode b1 = base64_encode b2 -> b1 = b2.
Proof.
  intros [H1 _]%base64_roundtrip_printable [H2 _]%base64_roundtrip_printable Heq.
  rewrite <- H1, <- H2. by rewrite Heq.
Qed.

(** Unpaired surrogates: what the encoding makes of them *)

Lemma toWellFormed_cons u rest :
  toWellFormed (u :: rest) =
  if is_high_surrogate u then
    match rest with
    | l :: rest' =>
        if is_low_surrogate l then u :: l :: toWellFormed rest'
        else 0xFFFD :: toWellFormed rest
    | [] => [0xFFFD]
    end
  else if is_low_surrogate u then 0xFFFD :: toWellFormed rest
  else u :: toWellFormed rest.
Proof. destruct rest; reflexivity. Qed.

Lemma utf8_encode_replacement rest :
  utf8_encode (0xFFFD :: rest) = 0xEF :: 0xBF :: 0xBD :: utf8_encode rest.
Proof. rewrite utf8_encode_cons. reflexivity. Qed.

Lemma surrogate_not_short u :
  is_high_surrogate u || is_low_surrogate u = true ->
  (u <? 0x80) = false /\ (u <? 0x800) = false.
Proof.
  unfold is_high_surrogate, is_low_surrogate.
  intros [[H1%N.leb_le _]%andb_true_iff|[H1%N.leb_le _]%andb_true_iff]%orb_true_iff;
    split; apply N.ltb_ge; lia.
Qed.

Lemma high_not_low u : is_high_surrogate u = true -> is_low_surrogate u = false.
Proof.
  unfold is_high_surrogate, is_low_surrogate.
  intros [_ H%N.ltb_lt]%andb_true_iff. apply andb_false_iff. left. apply N.leb_gt. lia.
Qed.

(** Encoding replaces unpaired surrogates as [toWellFormed] does. *)
Lemma utf8_encode_toWellFormed s : utf8_encode (toWellFormed s) = utf8_encode s.
Proof.
  induction s as [|u rest IH IH'] using list_ind_pairs; [done|].
  rewrite toWellFormed_cons, (utf8_encode_cons u rest).
  destruct (is_high_surrogate u) eqn:Hhigh.
  - destruct (surrogate_not_short u) as [-> ->]; [by rewrite Hhigh|].
    destruct rest as [|l rest']; [reflexivity|].
    destruct (is_low_surrogate l) eqn:Hlow.
    + rewrite utf8_encode_cons.
      destruct (surrogate_not_short u) as [-> ->]; [by rewrite Hhigh|].
      rewrite Hhigh, Hlow. cbv zeta. by rewrite IH'.
    + by rewrite utf8_encode_replacement, IH.
  - destruct (is_low_surrogate u) eqn:Hlow.
    + destruct (surrogate_not_short u) as [-> ->]; [by rewrite Hlow, orb_true_r|].
      by rewrite utf8_encode_replacement, IH.
    + rewrite utf8_encode_cons, Hhigh, Hlow, IH. reflexivity.
Qed.

Lemma toWellFormed_well_formed s : utf16 s = true -> well_formed (toWellFormed s) = true.
Proof.
  induction s as [|u rest IH IH'] using list_ind_pairs; [done|].
  unfold utf16 in *. cbn [forallb]. intros [Hu Hrest]%andb_true_iff.
  rewrite toWellFormed_cons.
  destruct (is_high_surrogate u) eqn:Hhigh.
  - destruct rest as [|l rest']; [reflexivity|].
    cbn [forallb] in Hrest. apply andb_true_iff in Hrest as [Hl Hrest'].
    destruct (is_low_surrogate l) eqn:Hlow.
    + cbn [well_formed]. rewrite Hhigh, Hlow. simpl. by apply IH'.
    + change (well_formed (toWellFormed (l :: rest')) = true). apply IH.
      cbn [forallb]. by rewrite Hl.
  - destruct (is_low_surrogate u) eqn:Hlow.
    + change (well_formed (toWellFormed rest) = true). by apply IH.
    + cbn [well_formed]. rewrite Hhigh, Hlow, Hu. simpl. by apply IH.
Qed.

Lemma toWellFormed_id s : well_formed s = true -> toWellFormed s = s.
Proof.
  induction s as [|u rest IH IH'] using list_ind_pairs; [done|].
  rewrite toWellFormed_cons. cbn [well_formed].
  destruct (is_high_surrogate u) eqn:Hhigh.
  - destruct rest as [|l rest']; [done|].
    intros [-> Hrest]%andb_true_iff. by rewrite IH'.
  - destruct (is_low_surrogate u); [done|].
    intros [_ Hrest]%andb_true_iff. by rewrite IH.
Qed.

Lemma utf8_encode_range s : utf16 s = true -> Forall (fun b => b < 256) (utf8_encode s).
Proof.
  intros Hs. rewrite <- utf8_encode_toWellFormed.
  by apply utf8_roundtrip_range, toWellFormed_well_formed.
Qed.

Lemma well_formed_utf16 s : well_formed s = true -> utf16 s = true.
Proof.
  induction s as [|u rest IH IH'] using list_ind_pairs; [done|].
  unfold utf16 in *. cbn [well_formed forallb].
  destruct (is_high_surrogate u) eqn:Hhigh.
  - destruct rest as [|l rest']; [done|].
    intros [Hlow Hrest]%andb_true_iff. cbn [forallb]. rewrite (IH' Hrest).
    unfold is_high_surrogate in Hhigh. unfold is_low_surrogate in Hlow. unfold code_unit.
    apply andb_true_iff in Hhigh as [_ Hu%N.ltb_lt]. apply andb_true_iff in Hlow as [_ Hl%N.ltb_lt].
    replace (u <? 65536) with true by (symmetry; apply N.ltb_lt; lia).
    replace (l <? 65536) with true by (symmetry; apply N.ltb_lt; lia). done.
  - destruct (is_low_surrogate u); [done|].
    intros [-> Hrest]%andb_true_iff. by rewrite (IH Hrest).
Qed.

(** Equal normalised queries always share their key. *)
Lemma getQueryCacheKey_normalize ul q1 q2 :
  normalize ul q1 = normalize ul q2 -> getQueryCacheKey ul q1 = getQueryCacheKey ul q2.
Proof. unfold getQueryCacheKey. by intros ->. Qed.

(** C6, as the code has it, for all strings of 16-bit units.  Queries with
    equal normalised texts (lower-cased, then trimmed) always share their
    key; "Ukraine War?" and " ukraine war? " do.  Two keys are equal exactly
    when the normalised texts are equal once every unpaired surrogate is
    replaced by U+FFFD: so for normalised texts that are well-formed UTF-16,
    exactly when they are equal.  Every key is "query:" followed by the
    Base64 text of the UTF-8 bytes of the normalised query (decoding gives
    the normalised query back, unpaired surrogates replaced), and all its
    characters are printable ASCII, so it holds no control character. *)
Theorem getQueryCacheKey_spec (ul : list N -> list N) q1 q2 :
  let n1 := normalize ul q1 in
  let n2 := normalize ul q2 in
  (n1 = n2 -> getQueryCacheKey ul q1 = getQueryCacheKey ul q2)
  /\ (well_formed n1 = true -> well_formed n2 = true ->
      getQueryCacheKey ul q1 = getQueryCacheKey ul q2 -> n1 = n2)
  /\ (utf16 n1 = true -> utf16 n2 = true ->
      (getQueryCacheKey ul q1 = getQueryCacheKey ul q2
       <-> toWellFormed n1 = toWellFormed n2))
  /\ getQueryCacheKey ul (lit "Ukraine War?") = getQueryCacheKey ul (lit " ukraine war? ")
  /\ (exists encoded,
        getQueryCacheKey ul q1 = lit "query:" ++ encoded
        /\ (utf16 n1 = true -> utf8_decode (base64_decode encoded) = toWellFormed n1)
        /\ (well_formed n1 = true -> utf8_decode (base64_decode encoded) = n1))
  /\ (utf16 n1 = true ->
      Forall (fun c => printable_ascii c = true) (getQueryCacheKey ul q1)).
Proof.
  intros n1 n2.
  assert (Hdecode : utf16 n1 = true ->
            utf8_decode (base64_decode (base64_encode (utf8_encode n1))) = toWellFormed n1).
  { intros H16. destruct (base64_roundtrip_printable _ (utf8_encode_range _ H16)) as [-> _].
    rewrite <- utf8_encode_toWellFormed.
    by apply utf8_roundtrip_range, toWellFormed_well_formed. }
  assert (Hiff : utf16 n1 = true -> utf16 n2 = true ->
            (getQueryCacheKey ul q1 = getQueryCacheKey ul q2
             <-> toWellFormed n1 = toWellFormed n2)).
  { intros H1 H2. unfold getQueryCacheKey. fold n1 n2. split.
    - intros Heq%app_inv_head.
      apply base64_encode_injective in Heq; [|by apply utf8_encode_range..].
      rewrite <- (utf8_encode_toWellFormed n1), <- (utf8_encode_toWellFormed n2) in Heq.
      apply utf8_encode_injective in Heq; [exact Heq|by apply toWellFormed_well_formed..].
    - intros Heq. f_equal. f_equal.
      by rewrite <- (utf8_encode_toWellFormed n1), <- (utf8_encode_toWellFormed n2), Heq. }
  split; [apply getQueryCacheKey_normalize|]. split; [|split; [exact Hiff|split; [reflexivity|split]]].
  - intros Hwf1 Hwf2 Hkey.
    apply Hiff in Hkey; [|by apply well_formed_utf16..].
    by rewrite !toWellFormed_id in Hkey.
  - exists (base64_encode (utf8_encode n1)). split; [reflexivity|]. split; [exact Hdecode|].
    intros Hwf. rewrite Hdecode by by apply well_formed_utf16. by apply toWellFormed_id.
  - intros H16. unfold getQueryCacheKey. fold n1. apply Forall_app. split; [repeat constructor|].
    by apply base64_roundtrip_printable, utf8_encode_range.
Qed.

Lemma getQueryCacheKey_spec_witness :
  (getQueryCacheKey ascii_only_lower (lit "Ukraine War?")
   = getQueryCacheKey ascii_only_lower (lit "UKRAINE war?  ")
   <-> normalize ascii_only_lower (lit "Ukraine War?")
       = normalize ascii_only_lower (lit "UKRAINE war?  "))
  /\ getQueryCacheKey ascii_only_lower (lit "Ukraine War?") = lit "query:dWtyYWluZSB3YXI/"
  /\ Forall (fun c => printable_ascii c = true)
            (getQueryCacheKey ascii_only_lower (lit "Ukraine War?")).
Proof.
  destruct (getQueryCacheKey_spec ascii_only_lower (lit "Ukraine War?")
              (lit "UKRAINE war?  ")) as (Hif & Honly & _ & _ & _ & Hprint).
  split; [split; [apply Honly; reflexivity|exact Hif]|].
  split; [reflexivity|apply Hprint; reflexivity].
Defined.

(** C6, counterexample: the two one-unit strings made of the unpaired
    surrogates U+D800 and U+D801 are different after lower-casing and
    trimming, yet both are encoded as U+FFFD and get the same key. *)
Lemma getQueryCacheKey_lone_surrogates_collide :
  normalize ascii_only_lower [0xD800] = [0xD800]
  /\ normalize ascii_only_lower [0xD801] = [0xD801]
  /\ getQueryCacheKey ascii_only_lower [0xD800] = lit "query:77+9"
  /\ getQueryCacheKey ascii_only_lower [0xD801] = lit "query:77+9"
  /\ ~ (getQueryCacheKey ascii_only_lower [0xD800] = getQueryCacheKey ascii_only_lower [0xD801]
        <-> normalize ascii_only_lower [0xD800] = normalize ascii_only_lower [0xD801]).
Proof.
  repeat split; try reflexivity.
  intros [Hkey _]. specialize (Hkey eq_refl). discriminate Hkey.
Qed.

(** ** services/cacheService.js: the query cache

    What the two methods that the cache service does define give: a result
    stored for a query is read back, marked [fromCache], for every query
    with the same normalised text until the entry expires. *)
Lemma getCachedQueryResult_hit (ul : list N -> list N) e w q1 q2 result dt :
  normalize ul q1 = normalize ul q2 ->
  redis_up e (calls is_redis w) = true ->
  redis_up e (S (calls is_redis w)) = true ->
  (0 < defaultTTL e)%Z ->
  dt < Z.to_N (defaultTTL e) * 1000 ->
  let w1 := snd (cacheQueryResult ul q1 result None e w) in
  let later := mkWorld (w_redis w1) (w_now w1 + dt) (w_trace w1) in
  fst (cacheQueryResult ul q1 result None e w) = Ok true
  /\ fst (getCachedQueryResult ul q2 e later)
     = Ok (Some (mkCachedResult (answer result) (sources result)
                                (hasRelevantContext result) true (w_now w))).
Proof.
  intros Hnorm Hup1 Hup2 Httl Hdt.
  assert (Hkey : getQueryCacheKey ul q2 = getQueryCacheKey ul q1)
    by (symmetry; by apply getQueryCacheKey_normalize).
  unfold cacheQueryResult, getCachedQueryResult, try_catch, bind, now, ask, ret,
    redisClient_setEx, redisClient_get.
  rewrite Hup1. apply Z.ltb_lt in Httl as Httl'. rewrite Httl'. simpl.
  split; [reflexivity|].
  unfold calls, log; simpl. rewrite count_events_app.
  unfold count_events at 2; simpl. fold (calls is_redis w).
  replace (calls is_redis w + 1)%nat with (S (calls is_redis w)) by lia.
  rewrite Hup2. unfold redis_live; simpl.
  rewrite Hkey, lookup_insert_eq.
  replace (w_now w + dt <? w_now w + Z.to_N (defaultTTL e) * 1000) with true
    by (symmetry; apply N.ltb_lt; lia).
  reflexivity.
Qed.

(** ** routes/session.js: what a successful update stores *)

Lemma stored_session_live w sessionId s :
  stored_session w sessionId = Some s ->
  redis_live w (session_key sessionId) = Some (RSession s).
Proof.
  unfold stored_session.
  destruct (redis_live w (session_key sessionId)) as [[s'|d]|]; congruence.
Qed.




(** ** scripts/ingestNews.js: the whole run

    The loop over the batches ends and returns one entry per article, in
    the order of the articles, whatever the embedding service answers. *)

Lemma embed_batch_returns batch more e w :
  exists done w', embed_batch batch more e w = (Ok done, w')
                  /\ map ea_article done = batch.
Proof.
  unfold embed_batch, try_catch. unfold bind at 1.
  destruct (embed (map embedding_text batch) e w) as [[vs|err] w1].
  - destruct (negb (length vs =? length batch)%nat).
    + eexists _, _. unfold throw, bind, now, ret. split; [reflexivity|].
      rewrite map_map. apply map_id.
    + unfold bind, now, ret. destruct more; simpl; eexists _, _;
        (split; [reflexivity|apply attach_articles]).
  - eexists _, _. unfold bind, now, ret. split; [reflexivity|].
    rewrite map_map. apply map_id.
Qed.

Lemma createEmbeddings_from_returns batchSize fuel articles e w :
  (length articles <= fuel)%nat ->
  exists done w', createEmbeddings_from batchSize fuel articles e w = (Ok done, w')
                  /\ map ea_article done = articles.
Proof.
  revert articles w. induction fuel as [|fuel IH]; intros articles w Hlen.
  - destruct articles; [|simpl in Hlen; lia]. by eexists _, _.
  - destruct articles as [|a articles]; [by eexists _, _|].
    cbn [createEmbeddings_from]. unfold bind at 1.
    destruct (embed_batch_returns (firstn (Pos.to_nat batchSize) (a :: articles))
                (negb (length (skipn (Pos.to_nat batchSize) (a :: articles)) =? 0)%nat) e w)
      as (head & w1 & -> & Hhead).
    unfold bind at 1.
    destruct (IH (skipn (Pos.to_nat batchSize) (a :: articles)) w1)
      as (tail & w2 & -> & Htail).
    { rewrite length_skipn. pose proof (Pos2Nat.is_pos batchSize). simpl length in *. lia. }
    eexists _, _. split; [reflexivity|].
    rewrite map_app, Hhead, Htail. apply firstn_skipn.
Qed.

Lemma createEmbeddings_returns batchSize articles e w :
  exists done w', createEmbeddings batchSize articles e w = (Ok done, w')
                  /\ map ea_article done = articles.
Proof. by apply createEmbeddings_from_returns. Qed.

(** ** Known values of the string primitives *)

Example base64_encode_Man : base64_encode (utf8_encode (lit "Man")) = lit "TWFu".
Proof. reflexivity. Qed.

Example base64_encode_padding :
  base64_encode (utf8_encode (lit "Ma")) = lit "TWE="
  /\ base64_encode (utf8_encode (lit "M")) = lit "TQ==".
Proof. split; reflexivity. Qed.

(** U+00E9, U+20AC and the pair U+D83D U+DE00 (U+1F600). *)
Example utf8_encode_samples :
  utf8_encode [0xE9] = [0xC3; 0xA9]
  /\ utf8_encode [0x20AC] = [0xE2; 0x82; 0xAC]
  /\ utf8_encode [0xD83D; 0xDE00] = [0xF0; 0x9F; 0x98; 0x80]
  /\ utf8_encode [0xDE00; 0xD83D] = [0xEF; 0xBF; 0xBD; 0xEF; 0xBF; 0xBD].
Proof. repeat split; reflexivity. Qed.

Example trim_sample : trim ([0xFEFF; 32] ++ lit "a b" ++ [9; 0x2028; 10]) = lit "a b".
Proof. reflexivity. Qed.

Example normalize_sample (ul : list N -> list N) :
  normalize ul (lit " Ukraine War? ") = lit "ukraine war?".
Proof. reflexivity. Qed.

(* ===================================================================== *)
(** * Properties of further parts of the code *)
(* ===================================================================== *)

(** ** The Redis client *)

Lemma redisClient_get_up key e w :
  redis_up e (calls is_redis w) = true ->
  redisClient_get key e w = (Ok (redis_live w key), log (EvRedisGet key) w).
Proof. intros Hup. unfold redisClient_get. by rewrite Hup. Qed.

Lemma redisClient_get_down key e w :
  redis_up e (calls is_redis w) = false ->
  redisClient_get key e w = (Throw redis_error, log (EvRedisGet key) w).
Proof. intros Hup. unfold redisClient_get. by rewrite Hup. Qed.

Lemma redisClient_setEx_up key ttl v e w :
  redis_up e (calls is_redis w) = true ->
  (0 < ttl)%Z ->
  redisClient_setEx key ttl v e w
  = (Ok tt, mkWorld (<[key := (v, w_now w + Z.to_N ttl * 1000)]> (w_redis w))
                    (w_now w) (w_trace w ++ [EvRedisSetEx key ttl])).
Proof.
  intros Hup Httl%Z.ltb_lt. unfold redisClient_setEx. by rewrite Hup, Httl.
Qed.

Lemma redis_live_elapse dt w key :
  redis_live (elapse dt w) key =
  match w_redis w !! key with
  | Some (v, expires) => if w_now w + dt <? expires then Some v else None
  | None => None
  end.
Proof. reflexivity. Qed.

(** ** routes/session.js: creation, reading and expiry *)

Lemma create_session_ok e w :
  redis_up e (calls is_redis w) = true ->
  (0 < session_ttl e)%Z ->
  let id := uuidv4 e (calls is_uuid w) in
  exists w',
    create_session e w = (Ok (mkHttpRes 200 (BCreated id (session_ttl e))), w')
    /\ w_now w' = w_now w
    /\ calls is_redis w' = S (calls is_redis w)
    /\ w_redis w'
       = <[session_key id := (RSession (mkSession id (w_now w) (w_now w) 0 []),
                              w_now w + Z.to_N (session_ttl e) * 1000)]> (w_redis w).
Proof.
  intros Hup Httl id.
  unfold create_session, try_catch, bind, uuid, now, ask, ret.
  rewrite redisClient_setEx_up; [|by rewrite calls_log; simpl; rewrite Nat.add_0_r|done].
  eexists. split; [reflexivity|]. split; [reflexivity|]. split; [|reflexivity].
  unfold calls; simpl. rewrite !count_events_app. unfold count_events; simpl. lia.
Qed.

(** X1: a session that was just created can be read back.  When Redis
    answers and the TTL is positive, [POST /create] answers 200 with the new
    id and the TTL; [GET /:id/history] for that id, [dt] ms later, answers
    200 with an empty history and count 0 as long as [dt] is below the TTL,
    and 404 from then on.  The read leaves the store, and so the expiry of
    the session, as it was. *)
Theorem create_then_history e w dt :
  redis_up e (calls is_redis w) = true ->
  redis_up e (S (calls is_redis w)) = true ->
  (0 < session_ttl e)%Z ->
  let id := uuidv4 e (calls is_uuid w) in
  let created := create_session e w in
  let read := get_history id e (elapse dt (snd created)) in
  fst created = Ok (mkHttpRes 200 (BCreated id (session_ttl e)))
  /\ fst read
     = Ok (if dt <? Z.to_N (session_ttl e) * 1000
           then mkHttpRes 200 (BHistory [] 0 (w_now w))
           else mkHttpRes 404 (BFailure (lit "Session not found or expired")))
  /\ w_redis (snd read) = w_redis (snd created).
Proof.
  intros Hup1 Hup2 Httl id created read.
  destruct (create_session_ok e w Hup1 Httl) as (w1 & Hrun & Hnow & Hcalls & Hstore).
  fold id in Hrun, Hstore. unfold read, created. rewrite Hrun. simpl fst. simpl snd.
  split; [reflexivity|].
  assert (Hread : get_history id e (elapse dt w1)
                  = (Ok (if dt <? Z.to_N (session_ttl e) * 1000
                         then mkHttpRes 200 (BHistory [] 0 (w_now w))
                         else mkHttpRes 404 (BFailure (lit "Session not found or expired"))),
                     log (EvRedisGet (session_key id)) (elapse dt w1))).
  { unfold get_history, try_catch, bind.
    rewrite redisClient_get_up by (unfold elapse, calls in *; simpl; by rewrite Hcalls).
    rewrite redis_live_elapse, Hstore, lookup_insert_eq, Hnow.
    replace (w_now w + dt <? w_now w + Z.to_N (session_ttl e) * 1000)
      with (dt <? Z.to_N (session_ttl e) * 1000)
      by (destruct (N.ltb_spec dt (Z.to_N (session_ttl e) * 1000));
          symmetry; [apply N.ltb_lt|apply N.ltb_ge]; lia).
    by destruct (dt <? Z.to_N (session_ttl e) * 1000). }
  rewrite Hread. split; reflexivity.
Qed.

Lemma create_then_history_witness :
  let created := create_session env_one_hit world_init in
  fst created = Ok (mkHttpRes 200 (BCreated sample_session 86400))
  /\ fst (get_history sample_session env_one_hit (elapse 86399999 (snd created)))
     = Ok (mkHttpRes 200 (BHistory [] 0 0))
  /\ fst (get_history sample_session env_one_hit (elapse 86400000 (snd created)))
     = Ok (mkHttpRes 404 (BFailure (lit "Session not found or expired"))).
Proof.
  intros created.
  destruct (create_then_history env_one_hit world_init 86399999 eq_refl eq_refl eq_refl)
    as (Hcreated & Hread & _).
  destruct (create_then_history env_one_hit world_init 86400000 eq_refl eq_refl eq_refl)
    as (_ & Hgone & _).
  split; [exact Hcreated|]. split; [exact Hread|exact Hgone].
Defined.

(** ** routes/session.js: what the mutations store *)

(** The messages an update pushes: ids are the next values of the id
    generator, timestamps the current time. *)
Lemma updateSessionActivity_live_run e w sessionId userMessage botResponse s :
  redis_live w (session_key sessionId) = Some (RSession s) ->
  (0 < session_ttl e)%Z ->
  redis_up e (calls is_redis w) = true ->
  redis_up e (S (calls is_redis w)) = true ->
  let id1 := uuidv4 e (calls is_uuid w) in
  let id2 := uuidv4 e (S (calls is_uuid w)) in
  let pushed := mkMessage id1 user userMessage (w_now w)
                :: (if truthy botResponse
                    then [mkMessage id2 bot botResponse (w_now w)] else []) in
  let s' := mkSession (s_id s) (createdAt s) (w_now w)
                      (N.of_nat (length (messages s ++ pushed))) (messages s ++ pushed) in
  exists trace',
    updateSessionActivity sessionId userMessage botResponse e w
    = (Ok true,
       mkWorld (<[session_key sessionId
                  := (RSession s', w_now w + Z.to_N (session_ttl e) * 1000)]> (w_redis w))
               (w_now w) trace')
    /\ count_events is_redis trace' = S (S (calls is_redis w)).
Proof.
  intros Hs Httl Hup1 Hup2 id1 id2 pushed s'.
  unfold updateSessionActivity, try_catch. unfold bind at 1.
  rewrite redisClient_get_up, Hs by done.
  assert (Hn : forall w0, calls is_redis (log EvUuid w0) = calls is_redis w0)
    by (intros w0; rewrite calls_log; simpl; lia).
  assert (Hg : calls is_redis (log (EvRedisGet (session_key sessionId)) w)
               = S (calls is_redis w)) by (rewrite calls_log; simpl; lia).
  assert (Hu : forall ev w0, is_uuid ev = false -> calls is_uuid (log ev w0) = calls is_uuid w0)
    by (intros ev w0 Hev; rewrite calls_log, Hev; lia).
  subst s' pushed. destruct (truthy botResponse).
  - unfold bind, uuid, now, ask, ret.
    rewrite redisClient_setEx_up; [|by rewrite !Hn, Hg|done].
    eexists. split.
    + simpl. rewrite (calls_log is_uuid EvUuid), Hu by done. simpl.
      replace (calls is_uuid w + 1)%nat with (S (calls is_uuid w)) by lia.
      subst id1 id2. rewrite <- app_assoc. reflexivity.
    + simpl. rewrite !count_events_app. fold (calls is_redis w).
      unfold count_events; simpl. lia.
  - unfold bind, uuid, now, ask, ret.
    rewrite redisClient_setEx_up; [|by rewrite !Hn, Hg|done].
    eexists. split.
    + simpl. rewrite Hu by done. reflexivity.
    + simpl. rewrite !count_events_app. fold (calls is_redis w).
      unfold count_events; simpl. lia.
Qed.

(** X2: a successful [updateSessionActivity] only appends.  On a live
    session, with Redis answering and a positive TTL, it returns [true] and
    the stored session keeps its id, its creation time and all earlier
    messages in order; it gains a user message carrying [userMessage]
    (whatever that is, [null] included), followed by a bot message carrying
    [botResponse] exactly when [botResponse] is truthy; the new messages are
    stamped with the current time, [lastActivity] is the current time and
    [messageCount] is the new length. *)
Theorem updateSessionActivity_appends e w sessionId userMessage botResponse s :
  stored_session w sessionId = Some s ->
  (0 < session_ttl e)%Z ->
  redis_up e (calls is_redis w) = true ->
  redis_up e (S (calls is_redis w)) = true ->
  let run := updateSessionActivity sessionId userMessage botResponse e w in
  exists s' pushed,
    fst run = Ok true
    /\ stored_session (snd run) sessionId = Some s'
    /\ s_id s' = s_id s /\ createdAt s' = createdAt s /\ lastActivity s' = w_now w
    /\ messages s' = messages s ++ pushed
    /\ map m_type pushed = user :: (if truthy botResponse then [bot] else [])
    /\ map m_content pushed
       = userMessage :: (if truthy botResponse then [botResponse] else [])
    /\ Forall (fun m => m_timestamp m = w_now w) pushed
    /\ messageCount s' = N.of_nat (length (messages s) + length pushed).
Proof.
  intros Hs%stored_session_live Httl Hup1 Hup2 run.
  destruct (updateSessionActivity_live_run e w sessionId userMessage botResponse s
              Hs Httl Hup1 Hup2) as (trace' & Hrun & _).
  unfold run. rewrite Hrun. eexists _, _. split; [reflexivity|]. split.
  { unfold stored_session, redis_live; simpl. rewrite lookup_insert_eq.
    replace (w_now w <? w_now w + Z.to_N (session_ttl e) * 1000) with true
      by (symmetry; apply N.ltb_lt; lia).
    reflexivity. }
  simpl. repeat split; try by destruct (truthy botResponse).
  - destruct (truthy botResponse); by repeat constructor.
  - by rewrite length_app.
Qed.

Lemma updateSessionActivity_appends_witness :
  let w0 := snd (create_session env_one_hit world_init) in
  let run := updateSessionActivity sample_session CNull (CStr (lit "generated"))
               env_one_hit w0 in
  exists s' pushed,
    fst run = Ok true
    /\ stored_session (snd run) sample_session = Some s'
    /\ messages s' = pushed
    /\ map m_type pushed = [user; bot]
    /\ map m_content pushed = [CNull; CStr (lit "generated")]
    /\ messageCount s' = 2.
Proof.
  intros w0 run.
  destruct (updateSessionActivity_appends env_one_hit w0 sample_session
              CNull (CStr (lit "generated")) (mkSession sample_session 0 0 0 [])
              eq_refl eq_refl eq_refl eq_refl)
    as (s' & pushed & Hrun & Hs' & _ & _ & _ & Hm & Hty & Hc & _ & Hn).
  exists s', pushed. repeat split; try assumption.
  rewrite Hn. apply (f_equal (@length Role)) in Hty. rewrite length_map in Hty.
  rewrite Hty. reflexivity.
Defined.

Lemma stored_session_elapse_insert (w : World) (dt : N) (key sessionId : list N)
    (s : Session) (t ttl_ms : N) (r : gmap (list N) (RedisVal * N)) :
  key = session_key sessionId ->
  w_redis w = <[key := (RSession s, t + ttl_ms)]> r ->
  w_now w = t ->
  stored_session (elapse dt w) sessionId = if dt <? ttl_ms then Some s else None.
Proof.
  intros -> Hstore Hnow. unfold stored_session. rewrite redis_live_elapse, Hstore.
  rewrite lookup_insert_eq, Hnow.
  destruct (N.ltb_spec dt ttl_ms);
    [replace (t + dt <? t + ttl_ms) with true by (symmetry; apply N.ltb_lt; lia)
    |replace (t + dt <? t + ttl_ms) with false by (symmetry; apply N.ltb_ge; lia)];
    reflexivity.
Qed.

(** X3: the expiry of a session slides.  After a successful
    [updateSessionActivity] at time [t] the session is stored until
    [t + TTL], whatever expiry it had before: [dt] ms later it is still
    there exactly when [dt] is below the TTL. *)
Theorem updateSessionActivity_renews_ttl e w sessionId userMessage botResponse s dt :
  stored_session w sessionId = Some s ->
  (0 < session_ttl e)%Z ->
  redis_up e (calls is_redis w) = true ->
  redis_up e (S (calls is_redis w)) = true ->
  let w' := snd (updateSessionActivity sessionId userMessage botResponse e w) in
  expiry w' (session_key sessionId) = Some (w_now w + Z.to_N (session_ttl e) * 1000)
  /\ (is_Some (stored_session (elapse dt w') sessionId)
      <-> dt < Z.to_N (session_ttl e) * 1000).
Proof.
  intros Hs%stored_session_live Httl Hup1 Hup2 w'.
  destruct (updateSessionActivity_live_run e w sessionId userMessage botResponse s
              Hs Httl Hup1 Hup2) as (trace' & Hrun & _).
  unfold w'. rewrite Hrun. simpl snd. split.
  - unfold expiry; simpl. by rewrite lookup_insert_eq.
  - erewrite stored_session_elapse_insert; [|reflexivity|reflexivity|reflexivity].
    destruct (N.ltb_spec dt (Z.to_N (session_ttl e) * 1000)); split;
      intros H'; try lia; try (by eexists); by destruct H'.
Qed.

Lemma updateSessionActivity_renews_ttl_witness :
  let w0 := elapse 80000000 (snd (create_session env_one_hit world_init)) in
  let w' := snd (updateSessionActivity sample_session (CStr sample_query) CUndef
                   env_one_hit w0) in
  expiry w0 (session_key sample_session) = Some 86400000
  /\ expiry w' (session_key sample_session) = Some 166400000
  /\ is_Some (stored_session (elapse 86399999 w') sample_session).
Proof.
  intros w0 w'.
  destruct (updateSessionActivity_renews_ttl env_one_hit w0 sample_session
              (CStr sample_query) CUndef (mkSession sample_session 0 0 0 []) 86399999
              eq_refl eq_refl eq_refl eq_refl) as (Hexp & Hlive).
  split; [reflexivity|]. split; [exact Hexp|]. apply Hlive. reflexivity.
Defined.

Lemma clear_session_live_run e w sessionId s :
  redis_live w (session_key sessionId) = Some (RSession s) ->
  (0 < session_ttl e)%Z ->
  redis_up e (calls is_redis w) = true ->
  redis_up e (S (calls is_redis w)) = true ->
  exists trace',
    clear_session sessionId e w
    = (Ok (mkHttpRes 200 BCleared),
       mkWorld (<[session_key sessionId
                  := (RSession (mkSession (s_id s) (createdAt s) (w_now w) 0 []),
                      w_now w + Z.to_N (session_ttl e) * 1000)]> (w_redis w))
               (w_now w) trace').
Proof.
  intros Hs Httl Hup1 Hup2.
  unfold clear_session, try_catch. unfold bind at 1.
  rewrite redisClient_get_up, Hs by done.
  unfold bind, now, ask, ret.
  rewrite redisClient_setEx_up; [|rewrite calls_log; simpl|done].
  - by eexists.
  - by replace (calls is_redis w + 1)%nat with (S (calls is_redis w)) by lia.
Qed.

(** X4: [DELETE /:sessionId] on a live session answers 200 and resets the
    history: the stored session keeps its id and creation time, has no
    message and count 0, [lastActivity] is the current time, and the expiry
    starts again from the full TTL. *)
Theorem clear_session_resets e w sessionId s dt :
  stored_session w sessionId = Some s ->
  (0 < session_ttl e)%Z ->
  redis_up e (calls is_redis w) = true ->
  redis_up e (S (calls is_redis w)) = true ->
  let run := clear_session sessionId e w in
  fst run = Ok (mkHttpRes 200 BCleared)
  /\ stored_session (snd run) sessionId
     = Some (mkSession (s_id s) (createdAt s) (w_now w) 0 [])
  /\ (is_Some (stored_session (elapse dt (snd run)) sessionId)
      <-> dt < Z.to_N (session_ttl e) * 1000).
Proof.
  intros Hs%stored_session_live Httl Hup1 Hup2 run.
  destruct (clear_session_live_run e w sessionId s Hs Httl Hup1 Hup2) as (trace' & Hrun).
  unfold run. rewrite Hrun. simpl fst; simpl snd. split; [reflexivity|].
  assert (Hlater : forall d,
    stored_session
      (elapse d (mkWorld (<[session_key sessionId
                            := (RSession (mkSession (s_id s) (createdAt s) (w_now w) 0 []),
                                w_now w + Z.to_N (session_ttl e) * 1000)]> (w_redis w))
                         (w_now w) trace')) sessionId
    = if d <? Z.to_N (session_ttl e) * 1000
      then Some (mkSession (s_id s) (createdAt s) (w_now w) 0 []) else None)
    by (intros d; by erewrite stored_session_elapse_insert).
  split.
  - specialize (Hlater 0).
    replace (0 <? Z.to_N (session_ttl e) * 1000) with true in Hlater
      by (symmetry; apply N.ltb_lt; lia).
    rewrite <- Hlater. unfold elapse; simpl. by rewrite N.add_0_r.
  - rewrite Hlater.
    destruct (N.ltb_spec dt (Z.to_N (session_ttl e) * 1000)); split;
      intros H'; try lia; try (by eexists); by destruct H'.
Qed.

Lemma clear_session_resets_witness :
  let w0 := snd (create_session env_one_hit world_init) in
  let w1 := snd (updateSessionActivity sample_session (CStr sample_query) CUndef
                   env_one_hit w0) in
  exists s,
    stored_session w1 sample_session = Some s
    /\ length (messages s) = 1%nat
    /\ fst (clear_session sample_session env_one_hit w1) = Ok (mkHttpRes 200 BCleared)
    /\ stored_session (snd (clear_session sample_session env_one_hit w1)) sample_session
       = Some (mkSession sample_session 0 0 0 []).
Proof.
  intros w0 w1. eexists. split; [vm_compute; reflexivity|]. split; [reflexivity|].
  match goal with |- context [clear_session ?sid ?e ?w] =>
    destruct (clear_session_resets e w sid _ 0 eq_refl eq_refl eq_refl eq_refl)
      as (Hrun & Hstored & _) end.
  split; [exact Hrun|exact Hstored].
Defined.

(** X5: how the session routes fail.  While Redis refuses commands, creating
    a session, reading a history and clearing a session each answer 500 with
    their own message.  With Redis answering, reading or clearing a session
    that is absent or expired answers 404.  None of these requests changes
    the store. *)
Theorem session_routes_failures e w sessionId :
  (redis_up e (calls is_redis w) = false ->
     fst (create_session e w)
       = Ok (mkHttpRes 500 (BFailure (lit "Failed to create session")))
     /\ fst (get_history sessionId e w)
        = Ok (mkHttpRes 500 (BFailure (lit "Failed to fetch session history")))
     /\ fst (clear_session sessionId e w)
        = Ok (mkHttpRes 500 (BFailure (lit "Failed to clear session")))
     /\ w_redis (snd (create_session e w)) = w_redis w)
  /\ (redis_up e (calls is_redis w) = true ->
      redis_live w (session_key sessionId) = None ->
        fst (get_history sessionId e w)
          = Ok (mkHttpRes 404 (BFailure (lit "Session not found or expired")))
        /\ fst (clear_session sessionId e w)
           = Ok (mkHttpRes 404 (BFailure (lit "Session not found"))))
  /\ w_redis (snd (get_history sessionId e w)) = w_redis w
  /\ (redis_live w (session_key sessionId) = None ->
      w_redis (snd (clear_session sessionId e w)) = w_redis w).
Proof.
  split; [|split; [|split]].
  - intros Hdown.
    assert (Hcreate : create_session e w
              = (Ok (mkHttpRes 500 (BFailure (lit "Failed to create session"))),
                 log (EvRedisSetEx (session_key (uuidv4 e (calls is_uuid w))) (session_ttl e))
                     (log EvUuid w))).
    { unfold create_session, try_catch, bind, uuid, now, ask, ret, redisClient_setEx.
      rewrite calls_log; simpl. rewrite Nat.add_0_r, Hdown. reflexivity. }
    rewrite Hcreate. simpl snd. split; [reflexivity|].
    unfold get_history, clear_session, try_catch, bind.
    rewrite !redisClient_get_down by done. by repeat split.
  - intros Hup Hgone. unfold get_history, clear_session, try_catch, bind.
    rewrite !redisClient_get_up, Hgone by done. by split.
  - unfold get_history, try_catch, bind, redisClient_get.
    destruct (redis_up e (calls is_redis w)); [|reflexivity].
    by destruct (redis_live w (session_key sessionId)) as [[s|d]|].
  - intros Hgone. unfold clear_session, try_catch, bind, redisClient_get.
    destruct (redis_up e (calls is_redis w)); [|reflexivity]. by rewrite Hgone.
Qed.

Lemma session_routes_failures_witness :
  fst (get_history sample_session env_redis_down world_init)
    = Ok (mkHttpRes 500 (BFailure (lit "Failed to fetch session history")))
  /\ fst (clear_session sample_session env_redis_down world_init)
     = Ok (mkHttpRes 500 (BFailure (lit "Failed to clear session")))
  /\ fst (get_history sample_session env_one_hit world_init)
     = Ok (mkHttpRes 404 (BFailure (lit "Session not found or expired")))
  /\ fst (clear_session sample_session env_one_hit world_init)
     = Ok (mkHttpRes 404 (BFailure (lit "Session not found"))).
Proof.
  destruct (session_routes_failures env_redis_down world_init sample_session)
    as (Hdown & _).
  destruct (Hdown eq_refl) as (_ & Hh & Hc & _).
  destruct (session_routes_failures env_one_hit world_init sample_session)
    as (_ & Hgone & _).
  destruct (Hgone eq_refl eq_refl) as (Hh' & Hc').
  repeat split; assumption.
Defined.

(** ** services/cacheService.js: the query cache *)

Lemma redis_live_elapse_insert (w : World) (dt : N) (key : list N) (v : RedisVal)
    (t ttl_ms : N) (r : gmap (list N) (RedisVal * N)) :
  w_redis w = <[key := (v, t + ttl_ms)]> r ->
  w_now w = t ->
  redis_live (elapse dt w) key = if dt <? ttl_ms then Some v else None.
Proof.
  intros Hstore Hnow. rewrite redis_live_elapse, Hstore, lookup_insert_eq, Hnow.
  destruct (N.ltb_spec dt ttl_ms);
    [replace (t + dt <? t + ttl_ms) with true by (symmetry; apply N.ltb_lt; lia)
    |replace (t + dt <? t + ttl_ms) with false by (symmetry; apply N.ltb_ge; lia)];
    reflexivity.
Qed.

(** X6: the query cache round trip.  With Redis answering and a positive
    TTL, [cacheQueryResult] returns [true]; a read, [dt] ms later, for any
    query with the same normalised text returns the stored result with
    [fromCache = true] and the time of the write as [cachedAt] while [dt] is
    below the TTL, and [null] once the TTL has passed. *)
Theorem cache_round_trip (ul : list N -> list N) e w q1 q2 result ttl dt :
  normalize ul q1 = normalize ul q2 ->
  redis_up e (calls is_redis w) = true ->
  redis_up e (S (calls is_redis w)) = true ->
  (0 < default (defaultTTL e) ttl)%Z ->
  let written := cacheQueryResult ul q1 result ttl e w in
  fst written = Ok true
  /\ fst (getCachedQueryResult ul q2 e (elapse dt (snd written)))
     = Ok (if dt <? Z.to_N (default (defaultTTL e) ttl) * 1000
           then Some (mkCachedResult (answer result) (sources result)
                                     (hasRelevantContext result) true (w_now w))
           else None).
Proof.
  intros Hnorm Hup1 Hup2 Httl written.
  assert (Hkey : getQueryCacheKey ul q2 = getQueryCacheKey ul q1)
    by (symmetry; by apply getQueryCacheKey_normalize).
  assert (Hrun : written
            = (Ok true,
               mkWorld (<[getQueryCacheKey ul q1
                          := (RCache (mkCacheData result (w_now w) q1),
                              w_now w + Z.to_N (default (defaultTTL e) ttl) * 1000)]>
                          (w_redis w))
                       (w_now w)
                       (w_trace w ++ [EvRedisSetEx (getQueryCacheKey ul q1)
                                                   (default (defaultTTL e) ttl)]))).
  { unfold written, cacheQueryResult, try_catch, bind, now, ask, ret.
    replace (match ttl with Some t => t | None => defaultTTL e end)
      with (default (defaultTTL e) ttl) by by destruct ttl.
    by rewrite redisClient_setEx_up. }
  rewrite Hrun. simpl fst; simpl snd. split; [reflexivity|].
  unfold getCachedQueryResult, try_catch, bind.
  rewrite redisClient_get_up
    by (unfold elapse, calls; simpl; rewrite count_events_app; unfold count_events at 2;
        simpl; fold (calls is_redis w);
        by replace (calls is_redis w + 1)%nat with (S (calls is_redis w)) by lia).
  rewrite Hkey.
  erewrite redis_live_elapse_insert; [|reflexivity|reflexivity].
  by destruct (dt <? Z.to_N (default (defaultTTL e) ttl) * 1000).
Qed.

Lemma cache_round_trip_witness :
  let written := cacheQueryResult ascii_only_lower (lit "Ukraine War?") sample_response
                   None env_one_hit world_init in
  fst written = Ok true
  /\ fst (getCachedQueryResult ascii_only_lower (lit " ukraine war? ") env_one_hit
            (elapse 3599999 (snd written)))
     = Ok (Some (mkCachedResult (Some (lit "generated"))
                   [mkSource (Some (lit "Markets rally")) None] true true 0))
  /\ fst (getCachedQueryResult ascii_only_lower (lit " ukraine war? ") env_one_hit
            (elapse 3600000 (snd written)))
     = Ok None.
Proof.
  intros written.
  destruct (cache_round_trip ascii_only_lower env_one_hit world_init
              (lit "Ukraine War?") (lit " ukraine war? ") sample_response None 3599999
              eq_refl eq_refl eq_refl eq_refl) as (Hw & Hhit).
  destruct (cache_round_trip ascii_only_lower env_one_hit world_init
              (lit "Ukraine War?") (lit " ukraine war? ") sample_response None 3600000
              eq_refl eq_refl eq_refl eq_refl) as (_ & Hmiss).
  split; [exact Hw|]. split; [exact Hhit|exact Hmiss].
Defined.

(** X7: the cache is advisory.  Neither cache function ever throws: the
    write returns [true] exactly when Redis accepted it (Redis answering and
    a positive TTL) and [false] otherwise, leaving the store as it was; a
    read while Redis refuses commands returns [null]; a read never changes
    the store. *)
Theorem cache_failures_are_swallowed (ul : list N -> list N) e w query result ttl :
  let accepted := (redis_up e (calls is_redis w)
                   && (0 <? default (defaultTTL e) ttl)%Z)%bool in
  fst (cacheQueryResult ul query result ttl e w) = Ok accepted
  /\ (accepted = false ->
      w_redis (snd (cacheQueryResult ul query result ttl e w)) = w_redis w)
  /\ (exists hit, fst (getCachedQueryResult ul query e w) = Ok hit)
  /\ (redis_up e (calls is_redis w) = false ->
      fst (getCachedQueryResult ul query e w) = Ok None)
  /\ w_redis (snd (getCachedQueryResult ul query e w)) = w_redis w.
Proof.
  intros accepted. subst accepted.
  assert (Hd : match ttl with Some t => t | None => defaultTTL e end
               = default (defaultTTL e) ttl) by by destruct ttl.
  split; [|split; [|split; [|split]]].
  - unfold cacheQueryResult, try_catch, bind, now, ask, ret, redisClient_setEx.
    rewrite Hd. by destruct (redis_up e (calls is_redis w) && _)%bool.
  - intros Hrefused.
    unfold cacheQueryResult, try_catch, bind, now, ask, ret, redisClient_setEx.
    rewrite Hd, Hrefused. reflexivity.
  - unfold getCachedQueryResult, try_catch, bind, ret, redisClient_get.
    destruct (redis_up e (calls is_redis w)); [|by eexists].
    destruct (redis_live w (getQueryCacheKey ul query)) as [[s|d]|]; by eexists.
  - intros Hdown. unfold getCachedQueryResult, try_catch, bind.
    by rewrite redisClient_get_down.
  - unfold getCachedQueryResult, try_catch, bind, ret, redisClient_get.
    destruct (redis_up e (calls is_redis w)); [|reflexivity].
    by destruct (redis_live w (getQueryCacheKey ul query)) as [[s|d]|].
Qed.

Lemma cache_failures_are_swallowed_witness :
  fst (cacheQueryResult ascii_only_lower sample_query sample_response None
         env_redis_down world_init) = Ok false
  /\ fst (cacheQueryResult ascii_only_lower sample_query sample_response (Some (-5)%Z)
            env_one_hit world_init) = Ok false
  /\ fst (getCachedQueryResult ascii_only_lower sample_query env_redis_down world_init)
     = Ok None.
Proof.
  destruct (cache_failures_are_swallowed ascii_only_lower env_redis_down world_init
              sample_query sample_response None) as (Hw & _ & _ & Hr & _).
  destruct (cache_failures_are_swallowed ascii_only_lower env_one_hit world_init
              sample_query sample_response (Some (-5)%Z)) as (Hneg & _).
  split; [exact Hw|]. split; [exact Hneg|]. apply Hr. reflexivity.
Defined.

(** ** Which keys an operation writes *)

Section LogPreservation.

Variable I : World -> Prop.
Hypothesis I_log : forall ev w, I w -> I (log ev w).

Lemma keeps_uuid : preserves I uuid.
Proof. intros e w r w' HI [= _ <-]. by apply I_log. Qed.

Lemma keeps_get key : preserves I (redisClient_get key).
Proof.
  intros e w r w' HI. unfold redisClient_get.
  destruct (redis_up e (calls is_redis w)); intros [= _ <-]; by apply I_log.
Qed.

End LogPreservation.

Lemma untouched_except_refl key w : untouched_except key w w.
Proof. by split. Qed.

Lemma untouched_except_log key w0 ev w :
  untouched_except key w0 w -> untouched_except key w0 (log ev w).
Proof. intros [Hnow Hkeys]. by split. Qed.

Lemma untouched_except_setEx key w0 ttl v :
  preserves (untouched_except key w0) (redisClient_setEx key ttl v).
Proof.
  intros e w r w' [Hnow Hkeys]. unfold redisClient_setEx.
  destruct (redis_up e (calls is_redis w) && (0 <? ttl)%Z)%bool; intros [= _ <-].
  - split; [exact Hnow|]. intros k Hk. simpl. rewrite lookup_insert_ne by done. by apply Hkeys.
  - by split.
Qed.

Ltac untouched :=
  repeat first
    [ apply preserves_try_catch; [|intros ?]
    | apply preserves_bind; [|intros ?]
    | apply untouched_except_setEx
    | solve [ first [ apply preserves_ret | apply preserves_throw | apply preserves_ask
                    | apply preserves_now
                    | apply keeps_uuid; apply untouched_except_log
                    | apply keeps_get; apply untouched_except_log ] ] ].

Lemma updateSessionActivity_untouched sessionId userMessage botResponse w0 :
  preserves (untouched_except (session_key sessionId) w0)
            (updateSessionActivity sessionId userMessage botResponse).
Proof.
  unfold updateSessionActivity. untouched.
  match goal with |- preserves _ (match ?x with _ => _ end) => destruct x as [[s|d]|] end;
    untouched.
  destruct (truthy botResponse); untouched.
Qed.

Lemma clear_session_untouched sessionId w0 :
  preserves (untouched_except (session_key sessionId) w0) (clear_session sessionId).
Proof.
  unfold clear_session. untouched.
  match goal with |- preserves _ (match ?x with _ => _ end) => destruct x as [[s|d]|] end;
    untouched.
Qed.

Lemma cacheQueryResult_untouched (ul : list N -> list N) query result ttl w0 :
  preserves (untouched_except (getQueryCacheKey ul query) w0)
            (cacheQueryResult ul query result ttl).
Proof. unfold cacheQueryResult. untouched. Qed.

Lemma untouched_except_live key w0 w k :
  untouched_except key w0 w -> k <> key -> redis_live w k = redis_live w0 k.
Proof. intros [Hnow Hkeys] Hk. unfold redis_live. by rewrite Hkeys, Hnow. Qed.

Lemma session_key_injective s1 s2 : session_key s1 = session_key s2 -> s1 = s2.
Proof. unfold session_key. apply app_inv_head. Qed.

Lemma cache_key_not_session_key (ul : list N -> list N) query sessionId :
  getQueryCacheKey ul query <> session_key sessionId.
Proof.
  unfold getQueryCacheKey, session_key. intros Heq.
  apply (f_equal (hd 0)) in Heq. discriminate Heq.
Qed.

(** X8: the cache and the sessions live under disjoint keys.  Writing a
    query result, whatever the query, changes no stored session; updating
    or clearing a session, whatever its id, changes no cache entry. *)
Theorem cache_and_sessions_are_disjoint (ul : list N -> list N) e w query result ttl
    sessionId userMessage botResponse :
  stored_session (snd (cacheQueryResult ul query result ttl e w)) sessionId
    = stored_session w sessionId
  /\ redis_live (snd (updateSessionActivity sessionId userMessage botResponse e w))
                (getQueryCacheKey ul query)
     = redis_live w (getQueryCacheKey ul query)
  /\ redis_live (snd (clear_session sessionId e w)) (getQueryCacheKey ul query)
     = redis_live w (getQueryCacheKey ul query).
Proof.
  split; [|split].
  - unfold stored_session.
    erewrite untouched_except_live; [reflexivity| |].
    + eapply cacheQueryResult_untouched; [apply untouched_except_refl|].
      apply surjective_pairing.
    + intros Heq. by apply (cache_key_not_session_key ul query sessionId).
  - eapply untouched_except_live; [|apply cache_key_not_session_key].
    eapply updateSessionActivity_untouched; [apply untouched_except_refl|].
    apply surjective_pairing.
  - eapply untouched_except_live; [|apply cache_key_not_session_key].
    eapply clear_session_untouched; [apply untouched_except_refl|].
    apply surjective_pairing.
Qed.

(** X9: sessions do not interfere.  Updating or clearing one session leaves
    the stored state of every session with another id as it was, whether
    the operation succeeds or fails. *)
Theorem sessions_are_isolated e w sessionId other userMessage botResponse :
  other <> sessionId ->
  stored_session (snd (updateSessionActivity sessionId userMessage botResponse e w)) other
    = stored_session w other
  /\ stored_session (snd (clear_session sessionId e w)) other = stored_session w other.
Proof.
  intros Hother.
  assert (Hkey : session_key other <> session_key sessionId)
    by (intros Heq%session_key_injective; done).
  unfold stored_session. split.
  - erewrite untouched_except_live; [reflexivity| |exact Hkey].
    eapply updateSessionActivity_untouched; [apply untouched_except_refl|].
    apply surjective_pairing.
  - erewrite untouched_except_live; [reflexivity| |exact Hkey].
    eapply clear_session_untouched; [apply untouched_except_refl|].
    apply surjective_pairing.
Qed.

Lemma sessions_are_isolated_witness :
  let w0 := snd (create_session env_one_hit world_init) in
  let w1 := snd (create_session env_one_hit w0) in
  stored_session w1 (lit "id-1") = Some (mkSession (lit "id-1") 0 0 0 [])
  /\ stored_session
       (snd (updateSessionActivity sample_session (CStr sample_query) CUndef
               env_one_hit w1)) (lit "id-1")
     = stored_session w1 (lit "id-1")
  /\ stored_session (snd (clear_session sample_session env_one_hit w1)) (lit "id-1")
     = stored_session w1 (lit "id-1").
Proof.
  intros w0 w1. split; [vm_compute; reflexivity|].
  apply (sessions_are_isolated env_one_hit w1 sample_session (lit "id-1")).
  discriminate.
Defined.

(** ** server.js: the generation call for any number of retries *)

Lemma elapsed_app evs1 evs2 : elapsed (evs1 ++ evs2) = elapsed evs1 + elapsed evs2.
Proof. induction evs1 as [|[] evs1 IH]; simpl in *; lia. Qed.

Lemma safeGenerateContent_from_bounded prompt retries e remaining :
  forall i w,
    (0 <= i)%Z ->
    (i + Z.of_nat remaining = retries)%Z ->
    (1 <= remaining)%nat ->
    exists text evs,
      safeGenerateContent_from prompt retries remaining i e w = (Ok (Some text), after w evs)
      /\ (1 <= count_events is_generate evs <= remaining)%nat
      /\ (Z.of_N (elapsed evs) <= 1000 * (2 ^ (retries - 1) - 2 ^ i))%Z
      /\ Forall (fun ev => generate_or_wait ev = true) evs.
Proof.
  induction remaining as [|remaining IH]; intros i w Hi Hsum Hpos; [lia|].
  rewrite safeGenerateContent_from_step.
  assert (Hpow : (2 ^ i <= 2 ^ (retries - 1))%Z) by (apply Z.pow_le_mono_r; lia).
  assert (Hnext : (2 ^ (i + 1) = 2 * 2 ^ i)%Z) by (rewrite Z.pow_add_r by lia; lia).
  assert (Hpos2 : (0 < 2 ^ i)%Z) by (apply Z.pow_pos_nonneg; lia).
  destruct (generateContent e (calls is_generate w) prompt) as [text|err].
  { exists text, [EvGenerate prompt]. split; [done|]. split; [cbn; lia|].
    split; [simpl; lia|]. by repeat constructor. }
  destruct (bool_decide (e_status err = Some 503%Z) && (i <? retries - 1)%Z)%bool eqn:Hretry.
  - apply andb_true_iff in Hretry as [_ Hlt%Z.ltb_lt].
    destruct (IH (i + 1)%Z (after w [EvGenerate prompt; EvWait (Z.to_N (1000 * 2 ^ i))]))
      as (text & evs & Hrun & Hcount & Htime & Hkinds); [lia..|].
    exists text, ([EvGenerate prompt; EvWait (Z.to_N (1000 * 2 ^ i))] ++ evs).
    rewrite Hrun, after_after. split; [done|].
    rewrite count_events_app, elapsed_app. split; [cbn; lia|].
    split; [simpl elapsed; lia|]. by repeat constructor.
  - destruct (Z.eqb_spec i (retries - 1)) as [Hlast|Hmore].
    + exists apology, [EvGenerate prompt]. split; [done|]. split; [cbn; lia|].
      split; [simpl; lia|]. by repeat constructor.
    + destruct (IH (i + 1)%Z (after w [EvGenerate prompt]))
        as (text & evs & Hrun & Hcount & Htime & Hkinds); [lia..|].
      exists text, ([EvGenerate prompt] ++ evs).
      rewrite Hrun, after_after. split; [done|].
      rewrite count_events_app, elapsed_app. split; [cbn; lia|].
      split; [simpl elapsed; lia|]. by repeat constructor.
Qed.

(** X10: the generation call for any retry count.  With a positive number
    of retries it always returns text, makes at least one and at most
    [retries] attempts, does nothing but model calls and pauses, and pauses
    for at most 1000 * (2^(retries-1) - 1) ms in total (3 s for the default
    of 3).  With zero or a negative number of retries it makes no attempt
    and returns [undefined]. *)
Theorem safeGenerateContent_bounded e w prompt retries :
  ((retries <= 0)%Z -> safeGenerateContent prompt retries e w = (Ok None, w))
  /\ ((0 < retries)%Z ->
      exists text evs,
        safeGenerateContent prompt retries e w = (Ok (Some text), after w evs)
        /\ (1 <= count_events is_generate evs <= Z.to_nat retries)%nat
        /\ (Z.of_N (elapsed evs) <= 1000 * (2 ^ (retries - 1) - 1))%Z
        /\ Forall (fun ev => generate_or_wait ev = true) evs).
Proof.
  unfold safeGenerateContent. split.
  - intros Hneg. by replace (Z.to_nat retries) with 0%nat by lia.
  - intros Hpos.
    destruct (safeGenerateContent_from_bounded prompt retries e (Z.to_nat retries) 0%Z w)
      as (text & evs & Hrun & Hcount & Htime & Hkinds); [lia..|].
    exists text, evs. by rewrite Z.pow_0_r in Htime.
Qed.

Lemma safeGenerateContent_bounded_witness :
  safeGenerateContent sample_query 0 env_overloaded world_init = (Ok None, world_init)
  /\ exists evs,
       safeGenerateContent sample_query 3 env_overloaded world_init
       = (Ok (Some apology), after world_init evs)
       /\ count_events is_generate evs = 3%nat
       /\ elapsed evs = 3000.
Proof.
  destruct (safeGenerateContent_bounded env_overloaded world_init sample_query 0) as (H0 & _).
  destruct (safeGenerateContent_bounded env_overloaded world_init sample_query 3)
    as (_ & H3).
  split; [apply H0; lia|].
  destruct (H3 ltac:(lia)) as (text & evs & Hrun & _).
  exists [EvGenerate sample_query; EvWait 1000; EvGenerate sample_query; EvWait 2000;
          EvGenerate sample_query].
  repeat split; reflexivity.
Defined.

(** ** server.js: the RAG query processor on hits and on failures *)

Lemma mapi_res_ok {A B} (f : A -> N -> Res B) (g : A -> N -> B) l :
  forall i,
    (forall x j, x ∈ l -> f x j = Ok (g x j)) ->
    mapi_res f i l = Ok (mapi_from g i l).
Proof.
  induction l as [|x l IH]; intros i Hf; simpl; [done|].
  rewrite Hf by apply list_elem_of_here.
  rewrite IH; [done|]. intros y j Hy. apply Hf. by apply list_elem_of_further.
Qed.

Lemma mapi_res_throws {A B} (f : A -> N -> Res B) l :
  forall i,
    (exists x, x ∈ l /\ forall j, exists err, f x j = Throw err) ->
    exists err, mapi_res f i l = Throw err.
Proof.
  induction l as [|x l IH]; intros i (y & Hy & Hthrow).
  - by apply elem_of_nil in Hy.
  - simpl. destruct (f x i) as [b|err] eqn:Hfx; [|by eexists].
    apply elem_of_cons in Hy as [->|Hy].
    + destruct (Hthrow i) as (err & Herr). congruence.
    + destruct (IH (i + 1)) as (err & ->); [by exists y|by eexists].
Qed.

Lemma mapi_from_const {A B} (g : A -> B) l i :
  mapi_from (fun x (_ : N) => g x) i l = map g l.
Proof. revert i. induction l as [|x l IH]; intros i; simpl; [done|]. by rewrite IH. Qed.

(** X11: the RAG query processor on a non-empty search result whose hits
    all carry a payload.  It returns a response with
    [hasRelevantContext = true], one source per hit, in the order of the
    hits, made of the title and url of the hit's payload, and an answer that
    is text (never [undefined]); it made between one and three model
    calls. *)
Theorem processRAGQuery_on_hits e w query sessionId v w1 hits :
  embedSingle query e w = (Ok v, w1) ->
  qdrant_search e (calls is_search w1) (rag_search_request e v) = Ok hits ->
  hits <> [] ->
  Forall (fun h => is_Some (h_payload h)) hits ->
  exists text w',
    processRAGQuery query sessionId e w
    = (Ok (mkResponse (Some text)
             (map (fun h => mkSource (h_payload h ≫= p_title) (h_payload h ≫= p_url)) hits)
             true), w')
    /\ (calls is_generate w + 1 <= calls is_generate w' <= calls is_generate w + 3)%nat.
Proof.
  intros Hembed Hsearch Hne Hpayloads.
  pose proof (embedSingle_ok _ _ _ _ _ Hembed) as ->.
  unfold processRAGQuery. unfold bind at 1. rewrite Hembed.
  unfold bind at 1, ask. unfold bind at 1, qdrant_client_search.
  unfold rag_search_request in Hsearch. rewrite Hsearch.
  destruct hits as [|h hits]; [done|].
  set (all := h :: hits) in *.
  assert (Hsources : mapi_res source_of 0 all
            = Ok (map (fun h => mkSource (h_payload h ≫= p_title) (h_payload h ≫= p_url)) all)).
  { rewrite <- (mapi_from_const _ all 0). apply mapi_res_ok.
    intros x j Hx. rewrite Forall_forall in Hpayloads.
    destruct (Hpayloads x Hx) as [p Hp]. unfold source_of, payload_of. by rewrite Hp. }
  assert (Hblocks : exists blocks, mapi_res article_block 0 all = Ok blocks).
  { eexists. apply (mapi_res_ok article_block
      (fun r i => match h_payload r with
                  | Some p => lit "Article " ++ num_to_string (i + 1) ++ lit ": "
                              ++ show (p_title p) ++ nl ++ lit "Content: "
                              ++ show (p_summary p)
                  | None => []
                  end)).
    intros x j Hx. rewrite Forall_forall in Hpayloads.
    destruct (Hpayloads x Hx) as [p Hp]. unfold article_block, payload_of. by rewrite Hp. }
  destruct Hblocks as (blocks & Hblocks).
  unfold bind at 1, lift_res. rewrite Hsources.
  unfold bind at 1. rewrite Hblocks. cbv zeta.
  destruct (safeGenerateContent_bounded e
              (log (EvSearch (mkSearchReq (collectionName e) v 3 (Some (1, 2)%Z) None))
                   (log (EvEmbed [query]) w))
              (rag_prompt (join context_separator blocks) query) 3)
    as (_ & Hgen).
  destruct (Hgen ltac:(lia)) as (text & evs & Hrun & Hcount & _).
  unfold bind, ret. rewrite Hrun. exists text. eexists. split; [reflexivity|].
  rewrite calls_after, !calls_log. simpl. change (Z.to_nat 3) with 3%nat in Hcount. lia.
Qed.

Lemma processRAGQuery_on_hits_witness :
  exists w',
    processRAGQuery sample_query sample_session env_one_hit world_init
    = (Ok (mkResponse (Some (lit "generated"))
             [mkSource (Some (lit "Markets rally")) (Some (lit "https://n.example/1"))]
             true), w').
Proof.
  destruct (processRAGQuery_on_hits env_one_hit world_init sample_query sample_session
              (Some sample_vector) (log (EvEmbed [sample_query]) world_init) [sample_hit]
              eq_refl eq_refl) as (text & w' & Hrun & _).
  - discriminate.
  - repeat constructor. by eexists.
  - exists w'. rewrite Hrun. f_equal. f_equal.
    assert (Hanswer : fst (processRAGQuery sample_query sample_session env_one_hit world_init)
                      = Ok (mkResponse (Some (lit "generated"))
                              [mkSource (Some (lit "Markets rally"))
                                        (Some (lit "https://n.example/1"))] true))
      by reflexivity.
    rewrite Hrun in Hanswer. simpl in Hanswer. by injection Hanswer as ->.
Defined.

(** X12: the RAG query processor when the embedding call fails.  The
    failure leaves [processRAGQuery] as the fixed error of the embedding
    client (the status of the upstream error is not kept); the vector store
    and the model are not called. *)
Theorem processRAGQuery_embedding_failure e w query sessionId err :
  batchEmbedContents e (calls is_embed w) [query] = Throw err ->
  processRAGQuery query sessionId e w
  = (Throw (new_Error (lit "Failed to create embeddings")), log (EvEmbed [query]) w).
Proof.
  intros Hfail.
  unfold processRAGQuery, bind, embedSingle, bind, embed, try_catch,
    model_batchEmbedContents, throw.
  by rewrite Hfail.
Qed.

Lemma processRAGQuery_embedding_failure_witness :
  processRAGQuery sample_query sample_session env_embed_down world_init
  = (Throw (new_Error (lit "Failed to create embeddings")),
     log (EvEmbed [sample_query]) world_init)
  /\ e_status unreachable = e_status (new_Error (lit "Failed to create embeddings")).
Proof.
  split; [|reflexivity].
  apply (processRAGQuery_embedding_failure env_embed_down world_init sample_query
           sample_session unreachable).
  reflexivity.
Defined.

(** X13: the RAG query processor on a hit without payload.  When some hit of
    a non-empty search result carries no payload, building the sources
    throws; no response is returned and the model is not called. *)
Theorem processRAGQuery_bare_hit e w query sessionId v w1 hits :
  embedSingle query e w = (Ok v, w1) ->
  qdrant_search e (calls is_search w1) (rag_search_request e v) = Ok hits ->
  (exists h, h ∈ hits /\ h_payload h = None) ->
  exists err w',
    processRAGQuery query sessionId e w = (Throw err, w')
    /\ e_kind err = ErrTypeError
    /\ calls is_generate w' = calls is_generate w.
Proof.
  intros Hembed Hsearch (h & Hin & Hbare).
  pose proof (embedSingle_ok _ _ _ _ _ Hembed) as ->.
  unfold processRAGQuery. unfold bind at 1. rewrite Hembed.
  unfold bind at 1, ask. unfold bind at 1, qdrant_client_search.
  unfold rag_search_request in Hsearch. rewrite Hsearch.
  destruct hits as [|h0 hits]; [by apply elem_of_nil in Hin|].
  set (all := h0 :: hits) in *.
  assert (Hthrow : exists err, mapi_res source_of 0 all = Throw err /\ e_kind err = ErrTypeError).
  { clear -Hin Hbare. generalize 0 as i. induction all as [|x l IH]; intros i.
    - by apply elem_of_nil in Hin.
    - simpl. unfold source_of at 1, payload_of.
      destruct (h_payload x) as [p|] eqn:Hp; [|by eexists].
      apply elem_of_cons in Hin as [->|Hin]; [congruence|].
      destruct (IH Hin (i + 1)) as (err & -> & Hkind). by eexists. }
  destruct Hthrow as (err & Hthrow & Hkind).
  unfold bind, lift_res. rewrite Hthrow. eexists _, _. split; [reflexivity|].
  split; [exact Hkind|]. rewrite !calls_log. simpl. lia.
Qed.

Lemma processRAGQuery_bare_hit_witness :
  exists err w',
    processRAGQuery sample_query sample_session env_bare_hit world_init = (Throw err, w')
    /\ e_kind err = ErrTypeError
    /\ calls is_generate w' = 0%nat.
Proof.
  apply (processRAGQuery_bare_hit env_bare_hit world_init sample_query sample_session
           (Some sample_vector) (log (EvEmbed [sample_query]) world_init)
           [sample_hit; mkHit (lit "a2") 80 None] eq_refl eq_refl).
  eexists. split; [apply list_elem_of_further, list_elem_of_here|reflexivity].
Defined.

(** ** server.js never touches Redis *)

Lemma redis_idle_refl w : redis_idle w w.
Proof. by split. Qed.

Lemma redis_idle_log w0 ev w :
  is_redis ev = false -> redis_idle w0 w -> redis_idle w0 (log ev w).
Proof.
  intros Hev [Hstore Hcalls]. split; [exact Hstore|].
  rewrite calls_log, Hev. lia.
Qed.

Lemma redis_idle_after w0 w evs :
  Forall (fun ev => generate_or_wait ev = true) evs ->
  redis_idle w0 w -> redis_idle w0 (after w evs).
Proof.
  intros Hkinds [Hstore Hcalls]. split; [exact Hstore|].
  rewrite calls_after, Hcalls.
  assert (count_events is_redis evs = 0)%nat; [|lia].
  induction Hkinds as [|ev evs Hev _ IH]; [done|].
  unfold count_events in *. simpl. by destruct ev.
Qed.

Lemma safeGenerateContent_redis_idle prompt retries w0 :
  preserves (redis_idle w0) (safeGenerateContent prompt retries).
Proof.
  intros e w r w' HI Hrun.
  destruct (safeGenerateContent_bounded e w prompt retries) as (Hzero & Hpos).
  destruct (Z.le_gt_cases retries 0) as [Hle|Hgt].
  - rewrite (Hzero Hle) in Hrun. by assert (w' = w) as -> by congruence.
  - destruct (Hpos ltac:(lia)) as (text & evs & Hrun' & _ & _ & Hkinds).
    rewrite Hrun' in Hrun. assert (w' = after w evs) as -> by congruence.
    by apply redis_idle_after.
Qed.

Lemma embed_redis_idle texts w0 : preserves (redis_idle w0) (embed texts).
Proof.
  intros e w r w' HI. destruct texts as [|t texts]; simpl.
  - by intros [= _ <-].
  - unfold try_catch, model_batchEmbedContents, throw.
    destruct (batchEmbedContents e (calls is_embed w) (t :: texts));
      intros [= _ <-]; by apply redis_idle_log.
Qed.

Lemma lift_res_keeps {A} (I : World -> Prop) (r : Res A) : preserves I (lift_res r).
Proof.
  intros e w r' w' HI Hrun. unfold lift_res in Hrun.
  by assert (w' = w) as -> by congruence.
Qed.

Lemma processRAGQuery_redis_idle query sessionId w0 :
  preserves (redis_idle w0) (processRAGQuery query sessionId).
Proof.
  unfold processRAGQuery, embedSingle.
  repeat first [ apply preserves_bind; [|intros ?] | apply embed_redis_idle
               | apply preserves_ret | apply preserves_ask ].
  - intros e w r w' HI [= _ <-]. by apply redis_idle_log.
  - match goal with |- preserves _ (match ?x with _ => _ end) => destruct x end.
    + apply preserves_ret.
    + repeat first [ apply safeGenerateContent_redis_idle | apply lift_res_keeps
                   | apply preserves_ret | progress cbv zeta
                   | apply preserves_bind; [|intros ?] ].
Qed.

(** X14: the RAG query processor of server.js works without Redis.
    Whatever the query and whatever the services answer, it issues no Redis
    command and leaves the store as it was: it neither reads nor writes the
    response cache, and it records nothing in the session. *)
Theorem processRAGQuery_never_uses_redis e w query sessionId :
  let w' := snd (processRAGQuery query sessionId e w) in
  w_redis w' = w_redis w /\ calls is_redis w' = calls is_redis w.
Proof.
  intros w'.
  destruct (processRAGQuery_redis_idle query sessionId w e w
              (fst (processRAGQuery query sessionId e w)) w' (redis_idle_refl w))
    as [Hstore Hcalls]; [apply surjective_pairing|].
  by split.
Qed.

(** X15: the [send-message] handler of a socket.  It never throws: when the
    RAG query processor returns a response, the handler emits one
    [bot-response] carrying that response and the session id of the
    message; when the processor throws (the embedding, the search or a
    payload failed), it emits one [error] event with a fixed text.  In both
    cases it issues no Redis command: a turn over the socket is not written
    to the session history. *)
Theorem on_send_message_emits e w sessionId message :
  let run := on_send_message sessionId message e w in
  match fst (processRAGQuery message sessionId e w) with
  | Ok response =>
      exists id t, fst run = Ok (EmitBotResponse id sessionId response t)
  | Throw _ =>
      fst run = Ok (EmitError (lit "Failed to process your message. Please try again."))
  end
  /\ w_redis (snd run) = w_redis w
  /\ calls is_redis (snd run) = calls is_redis w.
Proof.
  intros run. unfold run, on_send_message, try_catch, bind, uuid, now, ret.
  destruct (processRAGQuery_redis_idle message sessionId w e w
              (fst (processRAGQuery message sessionId e w))
              (snd (processRAGQuery message sessionId e w)) (redis_idle_refl w))
    as [Hstore Hcalls]; [apply surjective_pairing|].
  destruct (processRAGQuery message sessionId e w) as [[response|err] w1]; simpl in *.
  - split; [by eexists _, _|]. split; [exact Hstore|].
    rewrite calls_log; simpl. lia.
  - by repeat split.
Qed.

(** ** server.js: rooms of a connection and the disconnect handler *)





Lemma delete_first_bound_bindings id m :
  bindings_of id (delete_first_bound id m) = tl (bindings_of id m)
  /\ bindings_of_others id (delete_first_bound id m) = bindings_of_others id m.
Proof.
  unfold bindings_of, bindings_of_others.
  induction m as [|[k v] m [IH1 IH2]]; simpl; [done|].
  destruct (decide (v = id)) as [->|Hne].
  - rewrite bool_decide_eq_true_2 by done. by simpl.
  - simpl. rewrite bool_decide_eq_false_2 by done. simpl. by rewrite IH1, IH2.
Qed.

(** X17: what a disconnection does.  The closed connection is gone from
    every room.  In the registry, the handler deletes the first session
    bound to the connection and stops: the bindings of other connections
    are untouched, and when the connection was recorded for several
    sessions the later ones stay recorded for it. *)
Theorem on_disconnect_removes_first_binding io id :
  is_Some (sockets io !! id) ->
  let io' := on_disconnect id io in
  sockets io' !! id = None
  /\ (forall room, id ∉ room_members io' room)
  /\ bindings_of id (connectedSessions io') = tl (bindings_of id (connectedSessions io))
  /\ bindings_of_others id (connectedSessions io')
     = bindings_of_others id (connectedSessions io).
Proof.
  intros [rooms Hid] io'. unfold io', on_disconnect. rewrite Hid. simpl.
  split; [apply lookup_delete_eq|]. split.
  - intros room (r & Hr & _)%elem_of_room_members. simpl in Hr.
    by rewrite lookup_delete_eq in Hr.
  - apply delete_first_bound_bindings.
Qed.

Lemma on_disconnect_removes_first_binding_witness :
  let io := socket_run [Connection conn_a; JoinSession conn_a session_s;
                        JoinSession conn_a session_t] io_init in
  bindings_of conn_a (connectedSessions io) = [(session_s, conn_a); (session_t, conn_a)]
  /\ sockets (on_disconnect conn_a io) !! conn_a = None
  /\ bindings_of conn_a (connectedSessions (on_disconnect conn_a io))
     = [(session_t, conn_a)].
Proof.
  intros io.
  destruct (on_disconnect_removes_first_binding io conn_a) as (Hgone & _ & Hfirst & _).
  { eexists. vm_compute. reflexivity. }
  split; [vm_compute; reflexivity|]. split; [exact Hgone|].
  rewrite Hfirst. vm_compute. reflexivity.
Defined.

(** ** config/embeddings.js and services/ragService.js *)

(** X18: [embedSingle] does not check what the service answers.  It makes
    one request with the one text and returns the first vector of the
    answer, dropping any further vector; it returns [undefined] when the
    answer is empty; a failed request is rethrown as the fixed error of the
    client. *)
Theorem embedSingle_outcomes e w text :
  embedSingle text e w
  = (match batchEmbedContents e (calls is_embed w) [text] with
     | Ok [] => Ok None
     | Ok (v :: _) => Ok v
     | Throw _ => Throw (new_Error (lit "Failed to create embeddings"))
     end,
     log (EvEmbed [text]) w).
Proof.
  unfold embedSingle, bind, embed, try_catch, model_batchEmbedContents, throw, ret.
  by destruct (batchEmbedContents e (calls is_embed w) [text]) as [[|v vs]|err].
Qed.

(** X19: [retrieveRelevantDocs] never fails.  It sends one search with the
    given limit and [with_payload: true] and returns the hits of the store,
    or no hit at all when the search throws. *)
Theorem retrieveRelevantDocs_outcomes e w v k :
  let request := mkSearchReq (collectionName e) v k None (Some true) in
  retrieveRelevantDocs v k e w
  = (Ok (match qdrant_search e (calls is_search w) request with
         | Ok hits => hits
         | Throw _ => []
         end),
     log (EvSearch request) w).
Proof.
  unfold retrieveRelevantDocs, try_catch, bind, ask, qdrant_client_search, ret.
  by destruct (qdrant_search e (calls is_search w) _).
Qed.

(** ** scripts/ingestNews.js: the records of [createEmbeddings] *)

Lemma attach_vector_xor_error batch vs t :
  Forall vector_xor_error (attach batch vs t).
Proof.
  revert vs. induction batch as [|a batch IH]; intros vs; simpl; constructor; [|apply IH].
  destruct vs as [|[v|] vs]; [right|left|right]; simpl; by eauto.
Qed.

Lemma failed_vector_xor_error msg t batch :
  Forall vector_xor_error (map (failed msg t) batch).
Proof. induction batch; simpl; constructor; [right; simpl; by eauto|done]. Qed.

Lemma embed_log texts e w r w1 :
  embed texts e w = (r, w1) -> w1 = w \/ w1 = log (EvEmbed texts) w.
Proof.
  destruct texts as [|t texts]; simpl.
  - intros [= _ <-]. by left.
  - unfold try_catch, model_batchEmbedContents, throw.
    destruct (batchEmbedContents e (calls is_embed w) (t :: texts));
      intros [= _ <-]; by right.
Qed.

Lemma embed_requests_within_log n ev w :
  match ev with EvEmbed texts => (length texts <= n)%nat | _ => True end ->
  embed_requests_within n w -> embed_requests_within n (log ev w).
Proof.
  intros Hev HI. unfold embed_requests_within, log; simpl.
  apply Forall_app. split; [exact HI|]. by repeat constructor.
Qed.

Lemma embed_batch_records n batch more e w :
  (length batch <= n)%nat ->
  embed_requests_within n w ->
  exists done w',
    embed_batch batch more e w = (Ok done, w')
    /\ map ea_article done = batch
    /\ Forall vector_xor_error done
    /\ embed_requests_within n w'.
Proof.
  intros Hlen HI. unfold embed_batch, try_catch. unfold bind at 1.
  destruct (embed (map embedding_text batch) e w) as [[vs|err] w1] eqn:Hembed.
  - assert (HI1 : embed_requests_within n w1).
    { destruct (embed_log _ _ _ _ _ Hembed) as [->| ->]; [exact HI|].
      apply embed_requests_within_log; [|exact HI]. by rewrite length_map. }
    destruct (negb (length vs =? length batch)%nat).
    + eexists _, _. unfold throw, bind, now, ret. split; [reflexivity|].
      split; [rewrite map_map; apply map_id|]. split; [apply failed_vector_xor_error|done].
    + unfold bind, now, ret. destruct more; simpl; eexists _, _;
        (split; [reflexivity|]); (split; [apply attach_articles|]);
        (split; [apply attach_vector_xor_error|]); [|exact HI1].
      unfold wait. unfold embed_requests_within in *; simpl.
      apply Forall_app. split; [exact HI1|by repeat constructor].
  - assert (HI1 : embed_requests_within n w1).
    { destruct (embed_log _ _ _ _ _ Hembed) as [->| ->]; [exact HI|].
      apply embed_requests_within_log; [|exact HI]. by rewrite length_map. }
    eexists _, _. unfold bind, now, ret. split; [reflexivity|].
    split; [rewrite map_map; apply map_id|]. split; [apply failed_vector_xor_error|done].
Qed.

Lemma createEmbeddings_from_records batchSize fuel articles e w :
  (length articles <= fuel)%nat ->
  embed_requests_within (Pos.to_nat batchSize) w ->
  exists done w',
    createEmbeddings_from batchSize fuel articles e w = (Ok done, w')
    /\ map ea_article done = articles
    /\ Forall vector_xor_error done
    /\ embed_requests_within (Pos.to_nat batchSize) w'.
Proof.
  revert articles w. induction fuel as [|fuel IH]; intros articles w Hlen HI.
  - destruct articles; [|simpl in Hlen; lia]. by eexists _, _.
  - destruct articles as [|a articles]; [by eexists _, _|].
    cbn [createEmbeddings_from]. unfold bind at 1.
    destruct (embed_batch_records (Pos.to_nat batchSize)
                (firstn (Pos.to_nat batchSize) (a :: articles))
                (negb (length (skipn (Pos.to_nat batchSize) (a :: articles)) =? 0)%nat) e w)
      as (head & w1 & -> & Hhead & Hxor1 & HI1); [rewrite length_firstn; lia|exact HI|].
    unfold bind at 1.
    destruct (IH (skipn (Pos.to_nat batchSize) (a :: articles)) w1)
      as (tail & w2 & -> & Htail & Hxor2 & HI2).
    { rewrite length_skipn. pose proof (Pos2Nat.is_pos batchSize). simpl length in *. lia. }
    { exact HI1. }
    eexists _, _. split; [reflexivity|].
    split; [rewrite map_app, Hhead, Htail; apply firstn_skipn|].
    split; [by apply Forall_app|exact HI2].
Qed.

(** X20: the records of [createEmbeddings].  Whatever the embedding service
    does (answers, wrong counts, failures), and for every positive integer
    as the batch size of the service ([this.batchSize]: 10 in
    [NewsIngestionService], 100 or the option value in
    [BatchIngestionService]), [createEmbeddings] returns
    without throwing, with exactly one record per article in the order of
    the articles, and every record carries either a vector and no error, or
    an error and no vector.  It never sends more than [batchSize] texts in
    one embedding request. *)
Theorem createEmbeddings_records (batchSize : positive) e w articles :
  embed_requests_within (Pos.to_nat batchSize) w ->
  exists done w',
    createEmbeddings batchSize articles e w = (Ok done, w')
    /\ map ea_article done = articles
    /\ Forall vector_xor_error done
    /\ embed_requests_within (Pos.to_nat batchSize) w'.
Proof. intros HI. by apply createEmbeddings_from_records. Qed.

Lemma createEmbeddings_records_witness :
  exists done w',
    createEmbeddings (BatchIngestionService_batchSize None)
                     [article_one; article_two; article_one] env_two_vectors world_init
    = (Ok done, w')
    /\ map ea_article done = [article_one; article_two; article_one]
    /\ Forall vector_xor_error done
    /\ Forall (fun ea => embedding ea = None) done
    /\ embed_requests_within 100 w'.
Proof.
  destruct (createEmbeddings_records (BatchIngestionService_batchSize None)
              env_two_vectors world_init [article_one; article_two; article_one])
    as (done & w' & Hrun & Harticles & Hxor & Hwithin); [by constructor|].
  exists done, w'. repeat split; try assumption.
  assert (Hdone : fst (createEmbeddings (BatchIngestionService_batchSize None)
                         [article_one; article_two; article_one]
                         env_two_vectors world_init)
                  = Ok (map (failed (mismatch_message 2 3) 0)
                            [article_one; article_two; article_one])) by reflexivity.
  rewrite Hrun in Hdone. simpl in Hdone. injection Hdone as ->.
  by repeat constructor.
Defined.

(** ** scripts/ingestNews.js: [cleanText] *)

Lemma trimStart_split s :
  exists sp, s = sp ++ trimStart s /\ Forall (fun u => is_space u = true) sp.
Proof.
  induction s as [|u s (sp & Hs & Hsp)]; [by exists []|]. simpl.
  destruct (is_space u) eqn:Hu; [|by exists []].
  exists (u :: sp). split; [by rewrite <- app_comm_cons, <- Hs|by constructor].
Qed.

Lemma trimStart_starts_visible s : starts_visible (trimStart s).
Proof.
  induction s as [|u s IH]; [done|]. simpl.
  destruct (is_space u) eqn:Hu; [exact IH|exact Hu].
Qed.

Lemma trimStart_id s : starts_visible s -> trimStart s = s.
Proof. destruct s as [|u s]; [done|]. simpl. by intros ->. Qed.

Lemma trim_split s :
  exists sp1 sp2,
    s = sp1 ++ trim s ++ sp2
    /\ Forall (fun u => is_space u = true) sp1
    /\ Forall (fun u => is_space u = true) sp2
    /\ starts_visible (trim s) /\ starts_visible (rev (trim s)).
Proof.
  destruct (trimStart_split s) as (sp1 & Hs & Hsp1).
  destruct (trimStart_split (rev (trimStart s))) as (sp2 & Hr & Hsp2).
  assert (Ha : trimStart s = trim s ++ rev sp2).
  { unfold trim. rewrite <- rev_app_distr, <- Hr. by rewrite rev_involutive. }
  exists sp1, (rev sp2). split; [by rewrite <- Ha|]. split; [exact Hsp1|].
  split; [by apply Forall_rev|]. split.
  - pose proof (trimStart_starts_visible s) as Hhead. rewrite Ha in Hhead.
    by destruct (trim s).
  - unfold trim. rewrite rev_involutive. apply trimStart_starts_visible.
Qed.

Lemma spaced_app_l p q : spaced (p ++ q) = true -> spaced p = true.
Proof.
  induction p as [|u p IH]; [done|]. simpl.
  intros [Hu Hrest]%andb_true_iff. rewrite (IH Hrest), andb_true_r.
  destruct (is_space u); [|done]. apply andb_true_iff in Hu as [-> Hnext].
  destruct p as [|v p]; [done|exact Hnext].
Qed.

Lemma spaced_app_r p q : spaced (p ++ q) = true -> spaced q = true.
Proof.
  induction p as [|u p IH]; [done|]. simpl. intros [_ Hrest]%andb_true_iff. auto.
Qed.

Lemma collapse_spaces_spaced s :
  forall in_run,
    spaced (collapse_spaces in_run s) = true
    /\ (in_run = true -> starts_visible (collapse_spaces in_run s)).
Proof.
  induction s as [|u s IH]; intros in_run; [done|]. simpl.
  destruct (is_space u) eqn:Hu.
  - destruct in_run.
    + apply IH.
    + split; [|done]. simpl. destruct (IH true) as [Hsp Hstart]. rewrite Hsp.
      specialize (Hstart eq_refl). destruct (collapse_spaces true s) as [|v r]; [done|].
      simpl in Hstart. by rewrite Hstart.
  - split; [|intros _; exact Hu]. simpl. rewrite Hu. by destruct (IH false) as [-> _].
Qed.

Lemma spaced_single_spaced s :
  spaced s = true -> starts_visible (rev s) -> single_spaced s = true.
Proof.
  induction s as [|u s IH]; [done|]. simpl. intros [Hu Hrest]%andb_true_iff Hend.
  destruct s as [|v s].
  - simpl in *. rewrite Hend. done.
  - rewrite IH; [|exact Hrest|].
    + rewrite andb_true_r. destruct (is_space u); [|done].
      by apply andb_true_iff in Hu as [-> ->].
    + simpl in Hend |- *. destruct (rev s ++ [v]) eqn:Hrev; [|exact Hend].
      by destruct (rev s).
Qed.

Lemma visible_app p q : visible (p ++ q) = visible p ++ visible q.
Proof. apply List.filter_app. Qed.

Lemma visible_spaces sp : Forall (fun u => is_space u = true) sp -> visible sp = [].
Proof. induction 1 as [|u sp Hu _ IH]; [done|]. unfold visible in *. simpl. by rewrite Hu. Qed.

Lemma visible_collapse_spaces s in_run : visible (collapse_spaces in_run s) = visible s.
Proof.
  revert in_run. induction s as [|u s IH]; intros in_run; [done|].
  unfold visible in *. simpl. destruct (is_space u) eqn:Hu; simpl.
  - destruct in_run; simpl; by rewrite IH.
  - by rewrite Hu, IH.
Qed.

Lemma collapse_spaces_id s :
  forall in_run,
    spaced s = true -> (in_run = true -> starts_visible s) ->
    collapse_spaces in_run s = s.
Proof.
  induction s as [|u s IH]; intros in_run; [done|]. simpl.
  intros [Hu Hrest]%andb_true_iff Hstart.
  destruct (is_space u) eqn:Hsp.
  - destruct in_run; [specialize (Hstart eq_refl); simpl in Hstart; congruence|].
    apply andb_true_iff in Hu as [->%N.eqb_eq Hnext]. f_equal. apply IH; [exact Hrest|].
    intros _. destruct s as [|v s]; [done|]. simpl. by apply negb_true_iff.
  - f_equal. apply IH; [exact Hrest|done].
Qed.

Lemma single_spaced_spaced s :
  single_spaced s = true -> spaced s = true /\ starts_visible (rev s).
Proof.
  induction s as [|u s IH]; [done|]. simpl. intros [Hu Hrest]%andb_true_iff.
  destruct (IH Hrest) as [Hsp Hend]. rewrite Hsp, andb_true_r. split.
  - destruct (is_space u); [|done]. apply andb_true_iff in Hu as [-> Hnext].
    by destruct s.
  - destruct s as [|v s].
    + simpl in *. destruct (is_space u); [|done].
      by rewrite andb_false_r in Hu.
    + simpl in Hend |- *. destruct (rev s ++ [v]) eqn:Hrev; [by destruct (rev s)|exact Hend].
Qed.

(** X21: [cleanText] tidies white space and nothing else.  Its result has no
    white space at either end, and its only white space is single U+0020
    spaces between visible characters; the visible characters are those of
    the input, in the same order; text that is already tidy comes back
    unchanged, so cleaning twice is cleaning once. *)
Theorem cleanText_tidy text :
  tidy (cleanText text) = true
  /\ visible (cleanText text) = visible text
  /\ (tidy text = true -> cleanText text = text)
  /\ cleanText (cleanText text) = cleanText text.
Proof.
  assert (Htidy : tidy (cleanText text) = true).
  { destruct text as [|u0 text0]; [done|]. unfold cleanText.
    set (c := collapse_spaces false (u0 :: text0)).
    destruct (trim_split c) as (sp1 & sp2 & Hc & _ & _ & Hstart & Hend).
    destruct (collapse_spaces_spaced (u0 :: text0) false) as [Hsp _]. fold c in Hsp.
    rewrite Hc in Hsp. apply spaced_app_r, spaced_app_l in Hsp.
    pose proof (spaced_single_spaced _ Hsp Hend) as Hsingle.
    unfold tidy. destruct (trim c) as [|v r]; [done|].
    simpl in Hstart. by rewrite Hstart, Hsingle. }
  assert (Hfix : forall s, tidy s = true -> cleanText s = s).
  { intros [|u s]; [done|]. unfold tidy, cleanText.
    intros [Hu%negb_true_iff Hsingle]%andb_true_iff.
    destruct (single_spaced_spaced _ Hsingle) as [Hsp Hend].
    rewrite collapse_spaces_id by done.
    unfold trim. rewrite (trimStart_id (u :: s)) by exact Hu.
    rewrite trimStart_id by exact Hend. apply rev_involutive. }
  split; [exact Htidy|]. split; [|split; [apply Hfix|by apply Hfix]].
  destruct text as [|u0 text0]; [done|]. unfold cleanText.
  set (c := collapse_spaces false (u0 :: text0)).
  destruct (trim_split c) as (sp1 & sp2 & Hc & Hsp1 & Hsp2 & _).
  rewrite <- (visible_collapse_spaces (u0 :: text0) false). fold c.
  rewrite Hc at 2. rewrite !visible_app, (visible_spaces sp1), (visible_spaces sp2) by done.
  by rewrite app_nil_r.
Qed.

Example cleanText_sample :
  cleanText ([9; 32] ++ lit "Markets" ++ [10; 10; 0xA0] ++ lit "rally   today" ++ [13])
  = lit "Markets rally today".
Proof. reflexivity. Qed.

(** ** scripts/ingestNews.js: [validateArticle] and [ingestFromRSSFeeds] *)

Section IngestProofs.

Variable unicode_lower : jsstring -> jsstring.




End IngestProofs.


(** ** scripts/ingestNews.js: [storeInVectorDB] *)

Section StoreProofs.

Variable upsert : list Point -> M unit.

Lemma store_batch_counts batch more storedCount e w :
  exists n w',
    store_batch upsert batch more storedCount e w = (Ok n, w')
    /\ (n = storedCount \/ n = storedCount + length batch)%nat
    /\ (accepts_batches upsert -> well_formed_batch batch ->
        n = (storedCount + length batch)%nat)
    /\ (refuses_batches upsert -> n = storedCount).
Proof.
  unfold store_batch, try_catch. unfold bind at 1.
  destruct (upsert batch e w) as [[[]|err] w1] eqn:Hup.
  - destruct more; unfold bind, wait, ret; eexists _, _;
      (split; [reflexivity|]); (split; [by right|]); (split; [done|]);
      intros Hno; destruct (Hno batch e w) as (err & w2 & Hthrow); congruence.
  - unfold ret. eexists _, _. split; [reflexivity|]. split; [by left|].
    split; [|done]. intros Hyes Hwf. destruct (Hyes batch e w Hwf) as (w2 & Hok). congruence.
Qed.

Lemma store_from_counts fuel :
  forall points storedCount e w,
    exists n w',
      store_from upsert fuel points storedCount e w = (Ok n, w')
      /\ (storedCount <= n <= storedCount + length points)%nat
      /\ (accepts_batches upsert -> (length points <= fuel)%nat ->
          Forall (fun p => is_Some (pt_vector p)) points ->
          n = (storedCount + length points)%nat)
      /\ (refuses_batches upsert -> n = storedCount).
Proof.
  induction fuel as [|fuel IH]; intros points storedCount e w.
  - destruct points as [|p points]; eexists _, _; (split; [reflexivity|]);
      (split; [lia|]); (split; [|done]); simpl; intros; lia.
  - destruct points as [|p points].
    { eexists _, _. split; [reflexivity|]. split; [lia|]. split; [|done]. simpl. intros. lia. }
    cbn [store_from]. remember (p :: points) as all eqn:Hall.
    assert (Hpos : (0 < length all)%nat) by (subst all; simpl; lia).
    pose proof (length_take all vectorBatchSize) as Hbatch.
    pose proof (length_drop all vectorBatchSize) as Hrest.
    assert (Hsize : vectorBatchSize = 50%nat) by reflexivity.
    cbv zeta. unfold bind at 1.
    destruct (store_batch_counts (firstn vectorBatchSize all)
                (negb (length (skipn vectorBatchSize all) =? 0)%nat) storedCount e w)
      as (n1 & w1 & -> & Hn1 & Hyes1 & Hno1).
    destruct (IH (skipn vectorBatchSize all) n1 e w1) as (n & w' & -> & Hn & Hyes & Hno).
    exists n, w'. split; [reflexivity|]. split; [lia|]. split.
    + intros Hacc Hfuel Hvec. rewrite Hyes; [|exact Hacc|lia|by apply Forall_drop].
      rewrite Hyes1; [lia|exact Hacc|]. split; [|split].
      * intros Hnil. apply (f_equal length) in Hnil. simpl in Hnil. lia.
      * lia.
      * by apply Forall_take.
    + intros Hrefuse. rewrite (Hno Hrefuse). by apply Hno1.
Qed.

End StoreProofs.

(** X23: the count of [storeInVectorDB].  Once the collection is
    initialised the function returns a count and never throws, whatever the
    client does with the batches or with the final [getCollection]; the
    count is at most the number of articles that have an embedding.  If
    the client takes every batch that is not empty, has at most 50 points
    and whose points all carry a vector, the count is exactly the number of
    articles that have an embedding: nothing more is asked of the client.
    If the client refuses every batch the count is 0. *)
Theorem storeInVectorDB_counts (initializeCollection : M unit)
    (upsert : list Point -> M unit) (getCollection : M unit)
    (articlesWithEmbeddings : list EmbeddedArticle) (e : Env) (w w1 : World)
    (Hinit : initializeCollection e w = (Ok tt, w1)) :
  exists storedCount w',
    storeInVectorDB initializeCollection upsert getCollection articlesWithEmbeddings e w
    = (Ok storedCount, w')
    /\ (storedCount <= length (List.filter has_embedding articlesWithEmbeddings))%nat
    /\ (accepts_batches upsert ->
        storedCount = length (List.filter has_embedding articlesWithEmbeddings))
    /\ (refuses_batches upsert -> storedCount = 0%nat).
Proof.
  unfold storeInVectorDB. unfold bind at 1. rewrite Hinit. cbv zeta.
  set (valid := List.filter has_embedding articlesWithEmbeddings).
  destruct (Nat.eqb_spec (length valid) 0) as [Hnone|Hsome].
  { eexists _, _. split; [reflexivity|]. rewrite Hnone. by repeat split. }
  destruct (store_from_counts upsert (length (map to_point valid)) (map to_point valid) 0 e w1)
    as (n & w2 & Hrun & Hn & Hyes & Hno).
  rewrite length_map in Hn, Hyes.
  assert (Hend : exists w', try_catch getCollection (fun _ => ret tt) e w2 = (Ok tt, w')).
  { unfold try_catch. destruct (getCollection e w2) as [[[]|err] w3]; by eexists. }
  destruct Hend as (w' & Hend).
  exists n, w'. unfold bind. rewrite Hrun, Hend. split; [reflexivity|]. split; [lia|].
  split; [|exact Hno]. intros Hacc. rewrite Hyes; [done|exact Hacc|lia|].
  apply Forall_fmap, Forall_forall. intros a Ha. unfold valid in Ha.
  apply list_elem_of_In, List.filter_In in Ha as [_ Ha]. unfold has_embedding in Ha.
  simpl. by destruct (embedding a).
Qed.

Lemma storeInVectorDB_counts_witness :
  exists w',
    storeInVectorDB (ret tt) (fun _ => ret tt) (throw redis_error) sample_embedded
                    env_no_hits world_init
    = (Ok 1%nat, w').
Proof.
  destruct (storeInVectorDB_counts (ret tt) (fun _ => ret tt) (throw redis_error)
              sample_embedded env_no_hits world_init world_init eq_refl)
    as (n & w' & Hrun & _ & Hexact & _).
  exists w'. rewrite Hrun, Hexact; [reflexivity|].
  intros batch e w _. by exists w.
Defined.

(** ** services/cacheService.js: [getSessionFromCache], [updateSessionCache] *)

(** X24: the session helpers of the cache service and the session routes
    read and write the same documents.  With Redis answering and a positive
    TTL (86400 s when none is given, whatever SESSION_TTL says),
    [updateSessionCache] returns [true]; [dt] ms later both
    [getSessionFromCache] and [GET /:id/history] find the session written,
    as long as [dt] is below the TTL, and find nothing from then on.  When
    Redis fails, the helpers return [false] and [null]; they never throw. *)
Theorem session_cache_round_trip (e : Env) (w : World) (sessionId : list N)
    (session : Session) (ttl : option Z) (dt : N) :
  redis_up e (calls is_redis w) = true ->
  redis_up e (S (calls is_redis w)) = true ->
  (0 < default 86400 ttl)%Z ->
  let written := updateSessionCache sessionId (RSession session) ttl e w in
  let later := elapse dt (snd written) in
  let live := dt <? Z.to_N (default 86400%Z ttl) * 1000 in
  fst written = Ok true
  /\ fst (getSessionFromCache sessionId e later)
     = Ok (if live then Some (RSession session) else None)
  /\ fst (get_history sessionId e later)
     = Ok (if live
           then mkHttpRes 200 (BHistory (messages session) (messageCount session)
                                        (lastActivity session))
           else mkHttpRes 404 (BFailure (lit "Session not found or expired")))
  /\ forall e' w' data,
       redis_up e' (calls is_redis w') = false ->
       fst (updateSessionCache sessionId data ttl e' w') = Ok false
       /\ fst (getSessionFromCache sessionId e' w') = Ok None.
Proof.
  intros Hup1 Hup2 Httl written later live.
  assert (Hrun : written
            = (Ok true,
               mkWorld (<[session_key sessionId
                          := (RSession session,
                              w_now w + Z.to_N (default 86400%Z ttl) * 1000)]> (w_redis w))
                       (w_now w)
                       (w_trace w ++ [EvRedisSetEx (session_key sessionId)
                                                   (default 86400%Z ttl)]))).
  { unfold written, updateSessionCache, try_catch, bind, ret.
    replace (match ttl with Some t => t | None => 86400%Z end)
      with (default 86400%Z ttl) by by destruct ttl.
    by rewrite redisClient_setEx_up. }
  assert (Hget : redisClient_get (session_key sessionId) e later
                 = (Ok (if live then Some (RSession session) else None),
                    log (EvRedisGet (session_key sessionId)) later)).
  { rewrite redisClient_get_up.
    - unfold later. rewrite Hrun. simpl snd.
      by erewrite redis_live_elapse_insert; [|reflexivity|reflexivity].
    - unfold later. rewrite Hrun. unfold elapse, calls. simpl.
      rewrite count_events_app. unfold count_events at 2. simpl. fold (calls is_redis w).
      by replace (calls is_redis w + 1)%nat with (S (calls is_redis w)) by lia. }
  split; [by rewrite Hrun|]. split; [|split].
  - unfold getSessionFromCache, try_catch, bind. by rewrite Hget.
  - unfold get_history, try_catch, bind. rewrite Hget. by destruct live.
  - intros e' w' data Hdown. split.
    + unfold updateSessionCache, try_catch, bind, redisClient_setEx. by rewrite Hdown.
    + unfold getSessionFromCache, try_catch, bind. by rewrite redisClient_get_down.
Qed.

Lemma session_cache_round_trip_witness :
  let written := updateSessionCache session_s (RSession sample_stored_session) None
                   env_one_hit world_init in
  fst written = Ok true
  /\ fst (getSessionFromCache session_s env_one_hit (elapse 86399999 (snd written)))
     = Ok (Some (RSession sample_stored_session))
  /\ fst (get_history session_s env_one_hit (elapse 86400000 (snd written)))
     = Ok (mkHttpRes 404 (BFailure (lit "Session not found or expired"))).
Proof.
  pose proof (session_cache_round_trip env_one_hit world_init session_s
                sample_stored_session None 86399999 eq_refl eq_refl eq_refl)
    as (Hwritten & Hread & _).
  pose proof (session_cache_round_trip env_one_hit world_init session_s
                sample_stored_session None 86400000 eq_refl eq_refl eq_refl)
    as (_ & _ & Hgone & _).
  split; [exact Hwritten|]. split; [exact Hread|exact Hgone].
Defined.
